(** * NewsRetrievalEngine: the search entry points of [searcher.py]

    The development embeds [bm25_search] and [qlm_search] together with the
    Python built-ins they rely on ([sorted] with [reverse=True], slicing
    [l[:topk]], insertion-ordered [dict], [set]), and the ranking functions of
    [ranker.py] they call.  Scores are Python floats in the program; here they
    are idealised as real numbers (module [Ranker]), kept abstract behind
    the comparison [<] that [sorted] uses (module [Searcher]), or taken as
    the binary64 numbers they are (module [RankerFloat] and
    [ranknet_lstm_search]). *)

From Stdlib Require Import Reals Lra.
From Stdlib Require Floats Uint63.
From stdpp Require Import gmap gmultiset strings list sorting.

Close Scope R_scope.
Open Scope Z_scope.
Set Warnings "-clear-no-such-hyp".
Set Warnings "-inexact-float".

(** ** Python built-ins *)

Module Py.

(** Exceptions that the modelled code can raise. *)
Inductive exn : Type :=
| KeyError      (* subscript of a [dict] with a missing key *)
| ValueError.   (* [math domain error] *)

Inductive result (A : Type) : Type :=
| Ok (a : A)
| Raise (e : exn).
Global Arguments Ok {A} a.
Global Arguments Raise {A} e.

Definition bind {A B} (m : result A) (f : A → result B) : result B :=
  match m with
  | Ok a => f a
  | Raise e => Raise e
  end.

Definition succeeds {A} (m : result A) : Prop := ∃ a, m = Ok a.

(** [[f(x) for x in l]] where [f] may raise: the first exception wins. *)
Fixpoint for_each {A B} (f : A → result B) (l : list A) : result (list B) :=
  match l with
  | [] => Ok []
  | x :: l' =>
      bind (f x) (λ y, bind (for_each f l') (λ ys, Ok (y :: ys)))
  end.

(** *** [sorted(l, key=key, reverse=True)]

    CPython's sort compares keys with [<] only and is stable; with
    [reverse=True] the result is in descending key order and elements with
    equal keys keep their original relative order. *)
Section Sorted.
Context {A K : Type} (lt : K → K → bool) (key : A → K).

Fixpoint insert_desc (x : A) (l : list A) : list A :=
  match l with
  | [] => [x]
  | y :: l' =>
      if lt (key x) (key y) then y :: insert_desc x l' else x :: y :: l'
  end.

Definition sorted_reverse (l : list A) : list A := foldr insert_desc [] l.
End Sorted.

(** *** [l[:topk]]

    [None] keeps the list; a non-negative stop keeps that many leading
    elements; a negative stop [-n] counts from the end, keeping
    [max(len(l) - n, 0)] elements. *)
Definition slice_to {A} (l : list A) (topk : option Z) : list A :=
  match topk with
  | None => l
  | Some k =>
      if bool_decide (0 ≤ k) then take (Z.to_nat k) l
      else take (length l - Z.to_nat (- k))%nat l
  end.

(** *** Insertion-ordered [dict]

    A dictionary is the list of its items in insertion order.  Assigning
    to an existing key replaces the value and keeps the key's position. *)
Section Dict.
Context {K V : Type} `{EqDecision K}.

Fixpoint dict_set (k : K) (v : V) (d : list (K * V)) : list (K * V) :=
  match d with
  | [] => [(k, v)]
  | (k', v') :: d' =>
      if decide (k = k') then (k, v) :: d' else (k', v') :: dict_set k v d'
  end.

(** [{key(x): x for x in l}] *)
Definition dict_comprehension (key : V → K) (l : list V) : list (K * V) :=
  foldl (λ d x, dict_set (key x) x d) [] l.

(** [{k: v for k, v in items}] *)
Definition dict_of_items (items : list (K * V)) : list (K * V) :=
  foldl (λ d kv, dict_set kv.1 kv.2 d) [] items.
End Dict.

(** *** Iteration over a [set] of integers

    The order in which CPython enumerates a set is a property of its hash
    table, not of the program; any enumeration without repetition is
    admitted.  One instance fixes an enumeration for every set; where the
    order of two sets is compared, each set gets an instance of its own,
    since CPython may enumerate two equal sets differently. *)
Class SetIteration := {
  set_iter : gset Z → list Z;
  set_iter_perm : ∀ X, set_iter X ≡ₚ elements X
}.

(** The enumeration in ascending order: one admissible enumeration, which
    the fixture runs use.  It is not CPython's order in general ([{1, 8}]
    is enumerated with 8 first there). *)
#[export] Instance ascending_iteration : SetIteration :=
  {| set_iter X := merge_sort Z.le (elements X);
     set_iter_perm X := merge_sort_Permutation Z.le (elements X) |}.

(** *** The order on scores

    [sorted] only ever asks [a < b].  On floats other than NaN this is a
    strict weak order. *)
Class ScoreOrder (score : Type) := {
  ltb : score → score → bool;
  ltb_irrefl : ∀ x, ltb x x = false;
  ltb_trans : ∀ x y z, ltb x y = true → ltb y z = true → ltb x z = true;
  ltb_negtrans : ∀ x y z,
    ltb x z = true → ltb x y = true ∨ ltb y z = true
}.

(** Two scores tie when neither is below the other. *)
Definition tieb `{ScoreOrder score} (a b : score) : bool :=
  negb (ltb a b) && negb (ltb b a).

(** Descending by key: no element is below a later one. *)
Definition descending `{ScoreOrder K} {A} (key : A → K) : list A → Prop :=
  StronglySorted (λ a b, ltb (key a) (key b) = false).

(** [a] occurs in [l] at an earlier position than [b]. *)
Definition before {A} (a b : A) (l : list A) : Prop :=
  ∃ l1 l2 l3, l = l1 ++ a :: l2 ++ b :: l3.

(** [lt] is a strict weak order on the scores that satisfy [P]; for
    Python floats, [<] is one on the scores that are not NaN. *)
Record OrderedOn {K : Type} (lt : K → K → bool) (P : K → Prop) : Prop := {
  lt_irrefl_on : ∀ x, P x → lt x x = false;
  lt_trans_on : ∀ x y z, P x → P y → P z →
    lt x y = true → lt y z = true → lt x z = true;
  lt_negtrans_on : ∀ x y z, P x → P y → P z →
    lt x z = true → lt x y = true ∨ lt y z = true
}.

(** *** [sorted(l, key=key, reverse=True)] on float keys

    Python's [sorted] rearranges its input.  When no key is NaN, [<] is a
    strict weak order on the keys and the result is the stable descending
    arrangement that [sorted_reverse] builds.  With a NaN among the keys,
    which is below nothing and has nothing below it, the arrangement
    depends on which comparisons the interpreter's merge sort makes; for
    that case nothing but the rearrangement is recorded. *)
Class FloatSort := {
  sorted_floats : ∀ {A : Type}, (A → PrimFloat.float) → list A → list A;
  sorted_floats_perm : ∀ {A} (key : A → PrimFloat.float) l,
    sorted_floats key l ≡ₚ l;
  sorted_floats_ordered : ∀ {A} (key : A → PrimFloat.float) l,
    Forall (λ a, PrimFloat.is_nan (key a) = false) l →
    sorted_floats key l = sorted_reverse PrimFloat.ltb key l
}.

(** The sort that is [sorted_reverse] on every input. *)
#[export, refine] Instance insertion_sort : FloatSort :=
  {| sorted_floats A key := sorted_reverse PrimFloat.ltb key |}.
Proof.
  - intros A key l. induction l as [|x l IH]; simpl; [done|].
    rewrite <-IH at 2. generalize (sorted_reverse PrimFloat.ltb key l).
    clear IH. intros l'. induction l' as [|y l' IH]; simpl; [done|].
    destruct (PrimFloat.ltb (key x) (key y)); [|done].
    by rewrite IH, Permutation_swap.
  - done.
Defined.

End Py.
Import Py.

Notation "'let*' x ':=' m 'in' k" := (Py.bind m (λ x, k))
  (at level 10, x name, m at level 100, k at level 200).

(** ** Data model ([doctypes.py], as the fixtures of [tester.py] build it) *)

(** Modelled from the spec: [TokenizedDocument(id, title, content)] of
    doctypes.py, which is not among the sources.  The pickled collection
    stores vocabulary indices; [bm25_search] turns them into strings on
    load. *)
Record TokenizedDocument (T : Type) : Type := {
  doc_id : Z;
  doc_title : list T;
  doc_content : list T
}.
Arguments doc_id {T} _.
Arguments doc_title {T} _.
Arguments doc_content {T} _.

(** Modelled from the spec: [LanguageModel(id, counter, total, smoothing)]
    of doctypes.py, which is not among the sources.  [id] is [None] for the
    collection model.  The fixtures fix the meaning of the last two fields:
    [create_language_models] over a 7-word vocabulary with constant [1]
    turns the 6 tokens of a document into
    [LanguageModel(0, Counter('abcdef'), 13, 1)], so [total] is the token
    count plus the constant for every vocabulary word, and the fourth field
    is that additive constant. *)
Record LanguageModel : Type := {
  lm_id : option Z;
  lm_counter : gmultiset string;
  lm_total : Z;
  lm_smoothing : Z
}.

(** [Counter(l)] *)
Definition Counter (l : list string) : gmultiset string := list_to_set_disj l.

(** ** The ranking functions of [ranker.py] *)

Module Ranker.

(** [a < b] on real-valued scores. *)
#[export] Instance R_lt_dec : RelDecision Rlt := Rlt_dec.

#[export, program] Instance R_order : ScoreOrder R :=
  {| ltb x y := bool_decide (x < y)%R |}.
Next Obligation. intros x. apply bool_decide_eq_false. lra. Qed.
Next Obligation.
  intros x y z ?%bool_decide_eq_true ?%bool_decide_eq_true.
  apply bool_decide_eq_true. lra.
Qed.
Next Obligation.
  intros x y z ?%bool_decide_eq_true.
  destruct (Rlt_dec x y); [left | right]; apply bool_decide_eq_true; lra.
Qed.

Section WithStrings.
Open Scope R_scope.

Definition tokens_of (doc : TokenizedDocument string) : list string :=
  doc_title doc ++ doc_content doc.

(** Modelled from the spec: [calculate_tf] of ranker.py, which is not
    among the sources.  Term frequency is the count of a token in the
    document's title and body together; the fixture maps
    [('abcd', 'defg')] to [Counter('abcddefg')]. *)
Definition calculate_tf (doc : TokenizedDocument string) : gmultiset string :=
  Counter (tokens_of doc).

(** Modelled from the spec: [calculate_df] of ranker.py, which is not
    among the sources.  Document frequency counts, for each token, the
    candidate documents that contain it at least once. *)
Definition calculate_df (docs : list (TokenizedDocument string))
  : gmultiset string :=
  foldr (λ doc df, Counter (remove_dups (tokens_of doc)) ⊎ df) ∅ docs.

(** Modelled from the spec: [calculate_idf] of ranker.py, which is not
    among the sources.  [idf(t) = ln(N / df(t))], and [0] for a token no
    candidate contains. *)
Definition calculate_idf (df : gmultiset string) (n : nat) (t : string) : R :=
  if decide (multiplicity t df = 0%nat) then 0
  else ln (INR n / INR (multiplicity t df)).

Definition sum_list (l : list R) : R := foldr Rplus 0 l.
Definition prod_list (l : list R) : R := foldr Rmult 1 l.

(** Modelled from the spec: one query term's share of a document's BM25
    score, the summand of [calculate_bm25] in ranker.py. *)
Definition bm25_term (df : gmultiset string) (n : nat) (avgdl k1 b : R)
    (doc : TokenizedDocument string) (t : string) : R :=
  let tf := multiplicity t (calculate_tf doc) in
  if decide (tf = 0%nat) then 0
  else calculate_idf df n t * (INR tf * (k1 + 1))
       / (INR tf + k1 * (1 - b + b * INR (length (tokens_of doc)) / avgdl)).

(** Modelled from the spec: [calculate_bm25] of ranker.py, which is not
    among the sources.  Every candidate gets the sum over the query terms
    it contains; the pairs are ranked by descending score, candidates with
    equal scores staying in the order they were given. *)
Definition calculate_bm25 (query : list string)
    (docs : list (TokenizedDocument string)) (k1 b : R) : list (Z * R) :=
  let n := length docs in
  let df := calculate_df docs in
  let avgdl := sum_list (map (λ d, INR (length (tokens_of d))) docs) / INR n in
  let scores :=
    map (λ d, (doc_id d, sum_list (map (bm25_term df n avgdl k1 b d) query)))
        docs in
  sorted_reverse ltb snd scores.

(** Modelled from the spec: the logarithm used by ranker.py in normalized
    mode.  As with [math.log], a non-positive argument is a
    [ValueError: math domain error]. *)
Definition log (p : R) : result R :=
  if decide (0 < p) then Ok (ln p) else Raise ValueError.

(** Modelled from the spec: the probability a model gives a word, the
    ratio inside [calculate_word_probability] of ranker.py.  The spec writes
    it [count / total]; the fixtures show that the count is first raised by
    the model's additive constant ([word_probability] of a word absent from
    [Counter('abbcccdddd')], total [15], constant [1], is [1/15]). *)
Definition word_probability (model : LanguageModel) (word : string) : R :=
  IZR (Z.of_nat (multiplicity word (lm_counter model)) + lm_smoothing model)
  / IZR (lm_total model).

(** The spec's wording taken literally, [count / total], kept only to be
    compared with the fixtures. *)
Definition word_probability_as_worded (model : LanguageModel) (word : string)
  : R :=
  IZR (Z.of_nat (multiplicity word (lm_counter model))) / IZR (lm_total model).

(** Modelled from the spec: [calculate_word_probability] of ranker.py,
    which is not among the sources. *)
Definition calculate_word_probability (model : LanguageModel) (word : string)
    (normalize : bool) : result R :=
  if normalize then log (word_probability model word)
  else Ok (word_probability model word).

(** Modelled from the spec: how ranker.py combines per-token values, as a
    product or, in log space, as a sum. *)
Definition combine (normalize : bool) (ps : list R) : R :=
  if normalize then sum_list ps else prod_list ps.

(** Modelled from the spec: [calculate_sentence_probability] of ranker.py,
    which is not among the sources. *)
Definition calculate_sentence_probability (model : LanguageModel)
    (sentence : list string) (normalize : bool) : result R :=
  let* ps :=
    for_each (λ w, calculate_word_probability model w normalize) sentence in
  Ok (combine normalize ps).

(** Modelled from the spec: the Jelinek-Mercer interpolation of one token
    inside [calculate_interpolated_sentence_probability] of ranker.py. *)
Definition interpolated_word_probability (model collection_model : LanguageModel)
    (alpha : R) (word : string) : R :=
  alpha * word_probability model word
  + (1 - alpha) * word_probability collection_model word.

(** Modelled from the spec: [calculate_interpolated_sentence_probability]
    of ranker.py, which is not among the sources.  Each token's
    interpolated probability is formed first; the tokens are then combined
    as a product or, when [normalize] is set, as a sum of logarithms. *)
Definition calculate_interpolated_sentence_probability
    (model collection_model : LanguageModel) (sentence : list string)
    (alpha : R) (normalize : bool) : result R :=
  let* ps :=
    for_each
      (λ w, let p := interpolated_word_probability model collection_model alpha w in
            if normalize then log p else Ok p)
      sentence in
  Ok (combine normalize ps).

End WithStrings.
End Ranker.

(** ** Interval arithmetic for the logarithms of the fixtures

    [(1 + b/2^k)^(2^k)] is evaluated by [k] squarings, exactly on reals
    ([sq_iter]) and rounded down on integers scaled by [s] ([sqz_iter]). *)

Module LogBounds.

Fixpoint sq_iter (k : nat) (x : R) : R :=
  match k with
  | O => x
  | S k' => let y := sq_iter k' x in (y * y)%R
  end.

Fixpoint sqz_iter (s : Z) (k : nat) (x : Z) : Z :=
  match k with
  | O => x
  | S k' => let y := sqz_iter s k' x in (y * y) / s
  end.

End LogBounds.

(** ** [calculate_bm25] on binary64 numbers *)

Module RankerFloat.
Import PrimFloat FloatOps SpecFloat.
#[local] Open Scope float_scope.

(** [float(n)] for a count. *)
Definition of_count (n : nat) : float := of_uint63 (Uint63.of_Z (Z.of_nat n)).

Section WithLog.
(** [math.log], whose values come from the C library. *)
Variable log : float → float.

(** Modelled from the spec: [calculate_idf] of ranker.py, which is not
    among the sources, in Python's float arithmetic. *)
Definition calculate_idf (df : gmultiset string) (n : nat) (t : string)
  : float :=
  if decide (multiplicity t df = 0%nat) then 0
  else log (of_count n / of_count (multiplicity t df)).

(** Modelled from the spec: one query term's share of a document's BM25
    score, the summand of [calculate_bm25] in ranker.py, with the
    operations in the order Python gives the spec's formula. *)
Definition bm25_term (df : gmultiset string) (n : nat) (avgdl k1 b : float)
    (doc : TokenizedDocument string) (t : string) : float :=
  let tf := of_count (multiplicity t (Ranker.calculate_tf doc)) in
  calculate_idf df n t * (tf * (k1 + 1))
  / (tf + k1 * (1 - b + b * of_count (length (Ranker.tokens_of doc)) / avgdl)).

(** Modelled from the spec: a document's score, the [sum] over the query
    terms the document contains. *)
Definition score (df : gmultiset string) (n : nat) (avgdl k1 b : float)
    (query : list string) (doc : TokenizedDocument string) : float :=
  foldl (λ acc t, acc + bm25_term df n avgdl k1 b doc t) 0
        (filter (λ t, multiplicity t (Ranker.calculate_tf doc) ≠ 0%nat) query).

(** Modelled from the spec: [calculate_bm25] of ranker.py, which is not
    among the sources, on binary64 numbers; [sorted] compares the scores
    with the IEEE [<]. *)
Definition calculate_bm25 (query : list string)
    (docs : list (TokenizedDocument string)) (k1 b : float)
  : list (Z * float) :=
  let n := length docs in
  let df := Ranker.calculate_df docs in
  let avgdl :=
    of_count (foldr (λ d acc, length (Ranker.tokens_of d) + acc)%nat 0%nat docs)
    / of_count n in
  sorted_reverse ltb snd
    (map (λ d, (doc_id d, score df n avgdl k1 b query d)) docs).
End WithLog.

(** The logarithms that [test_calculate_idf] of tester.py records:
    [math.log(3/1)], [math.log(3/2)] and [math.log(3/3)]. *)
Definition fixture_log (x : float) : float :=
  if x =? 3 then 1.0986122886681098
  else if x =? 1.5 then 0.4054651081081644
  else 0.

(** The real number a finite binary64 number stands for. *)
Definition binary64_value (f : float) : R :=
  match Prim2SF f with
  | S754_finite s m e => ((if s then -1 else 1) * IZR (Z.pos m) * powerRZ 2 e)%R
  | _ => 0%R
  end.

(** [f] is a normal binary64 number, not a power of two, and [x] lies
    within less than half a unit in the last place of it: [f] is the
    binary64 number nearest to [x], the one a correctly rounded function
    returns for [x]. *)
Definition nearest_binary64 (x : R) (f : float) : Prop :=
  match Prim2SF f with
  | S754_finite s m e =>
      (2 ^ 52 < Z.pos m < 2 ^ 53)%Z
      ∧ (Rabs (x - binary64_value f) < powerRZ 2 (e - 1))%R
  | _ => False
  end.

End RankerFloat.

(** ** The search entry points of [searcher.py] *)

Module Searcher.

(** What [searcher.py] imports from [util]: the query cleaner, the
    unknown-word substitution and the index-to-string conversion of stored
    documents.  Their code is outside the sources. *)
Class Util := {
  Vocab : Type;
  clean_words : string → list string;
  replace_unknown_words : list string → Vocab → list string;
  convert_itos : list Z → Vocab → list string
}.

(** What [searcher.py] imports from [ranker], as it calls it:
    [calculate_bm25(query, hits)] and
    [calculate_interpolated_sentence_probability(model, collection_model,
    query, alpha, normalize)]. *)
Class RankerOps (score weight : Type) := {
  calculate_bm25 :
    list string → list (TokenizedDocument string) → result (list (Z * score));
  calculate_interpolated_sentence_probability :
    LanguageModel → LanguageModel → list string → weight → bool → result score
}.

(** The unpickled [data] dictionary. *)
Record ProcessedData `{Util} : Type := {
  vocab : Vocab;
  docs : list (TokenizedDocument Z);
  inverted_index : gmap string (list Z);
  language_models : list LanguageModel;
  collection_model : LanguageModel
}.

Section Definitions.
Context `{util : Util} `{iteration : SetIteration} {score weight : Type}
  `{order : ScoreOrder score} `{ranker : !RankerOps score weight}.

(** The loop over [data['docs']]: every document is converted and stored
    under its id; a later document with the same id replaces an earlier one. *)
Definition convert_doc (vocab : Vocab) (doc : TokenizedDocument Z)
  : TokenizedDocument string :=
  {| doc_id := doc_id doc;
     doc_title := convert_itos (doc_title doc) vocab;
     doc_content := convert_itos (doc_content doc) vocab |}.

Definition docs_map (data : ProcessedData) : gmap Z (TokenizedDocument string) :=
  foldl (λ m doc, <[doc_id doc := convert_doc (vocab data) doc]> m) ∅ (docs data).

(** Modelled from the spec: the lookup [inverted_index[word]] of the index
    object that process_docs.py (not among the sources) builds.  A token
    without postings yields the empty sequence. *)
Definition postings (index : gmap string (list Z)) (word : string) : list Z :=
  default [] (index !! word).

(** [set(doc_id for word in query for doc_id in inverted_index[word])] *)
Definition doc_ids (index : gmap string (list Z)) (query : list string) : gset Z :=
  list_to_set (query ≫= postings index).

(** [docs_map[doc_id]] *)
Definition get_doc (m : gmap Z (TokenizedDocument string)) (i : Z)
  : result (TokenizedDocument string) :=
  match m !! i with
  | Some doc => Ok doc
  | None => Raise KeyError
  end.

(** [[docs_map[doc_id] for doc_id in doc_ids]] *)
Definition hits (data : ProcessedData) (query : list string)
  : result (list (TokenizedDocument string)) :=
  for_each (get_doc (docs_map data))
           (set_iter (doc_ids (inverted_index data) query)).

Definition cleaned (data : ProcessedData) (query : string) : list string :=
  replace_unknown_words (clean_words query) (vocab data).

Definition bm25_search (query : string) (data : ProcessedData)
    (topk : option Z) : result (list (Z * score)) :=
  let query := cleaned data query in
  let* hits := hits data query in
  match hits with
  | [] => Ok []
  | _ => let* rank := calculate_bm25 query hits in Ok (slice_to rank topk)
  end.

(** [{model.id: model for model in data['language_models']}] *)
Definition models_map (data : ProcessedData) : list (option Z * LanguageModel) :=
  dict_comprehension lm_id (language_models data).

(** The loop [for doc_id, model in models_map.items(): scores[doc_id] = ...]. *)
Fixpoint fill_scores (collection_model : LanguageModel) (query : list string)
    (alpha : weight) (normalize : bool)
    (items : list (option Z * LanguageModel))
    (scores : list (option Z * score)) : result (list (option Z * score)) :=
  match items with
  | [] => Ok scores
  | (doc_id, model) :: items' =>
      let* s := calculate_interpolated_sentence_probability
                  model collection_model query alpha normalize in
      fill_scores collection_model query alpha normalize items'
                  (dict_set doc_id s scores)
  end.

(** [ks] is the entry that the loop writes for the item [km]. *)
Definition scored (collection_model : LanguageModel) (query : list string)
    (alpha : weight) (normalize : bool)
    (km : option Z * LanguageModel) (ks : option Z * score) : Prop :=
  ks.1 = km.1 ∧
  calculate_interpolated_sentence_probability
    km.2 collection_model query alpha normalize = Ok ks.2.

Definition scores (data : ProcessedData) (query : list string)
    (alpha : weight) (normalize : bool) : result (list (option Z * score)) :=
  fill_scores (collection_model data) query alpha normalize (models_map data) [].

Definition qlm_search (query : string) (data : ProcessedData)
    (topk : option Z) (alpha : weight) (normalize : bool)
  : result (list (option Z * score)) :=
  let query := cleaned data query in
  let* scores := scores data query alpha normalize in
  let rank := sorted_reverse ltb snd scores in
  Ok (slice_to rank topk).

End Definitions.

(** [searcher.py] running on the ranking functions above, with the default
    [k1=1.2], [b=0.75] of [calculate_bm25]. *)
#[export] Instance ranker_ops : RankerOps R R := {|
  calculate_bm25 query hits := Ok (Ranker.calculate_bm25 query hits (12/10) (3/4));
  calculate_interpolated_sentence_probability :=
    Ranker.calculate_interpolated_sentence_probability
|}.

(** What [ranknet_lstm_search] obtains from torch and [ranknet_lstm]
    (lines 119-133): the model is loaded from [model_path], the query and
    every document of the collection go through their pipelines, and the
    model's output is flattened into a list of scores.  Any step may raise. *)
Class NeuralOps `{Util} (score : Type) := {
  ranknet_output :
    string → Vocab → string → list (TokenizedDocument Z) → Z → Z →
    result (list score)
}.

(** The scores are the Python floats of [tolist()], binary64 numbers, a NaN
    possibly among them.  As in the other two searches, [data] is the
    dictionary already loaded from [processed_data_path]. *)
Section Neural.
Context `{util : Util} `{sorting : FloatSort}
  `{neural : !NeuralOps PrimFloat.float}.

(** [{doc.id: score for doc, score in zip(docs, output)}] *)
Definition neural_scores (docs : list (TokenizedDocument Z))
    (output : list PrimFloat.float) : list (Z * PrimFloat.float) :=
  dict_of_items (zip_with (λ doc s, (doc_id doc, s)) docs output).

Definition ranknet_lstm_search (query : string) (data : ProcessedData)
    (model_path : string) (topk : option Z) (max_query_len max_doc_len : Z)
  : result (list (Z * PrimFloat.float)) :=
  let* output := ranknet_output model_path (vocab data) query (docs data)
                                max_query_len max_doc_len in
  let scores := neural_scores (docs data) output in
  Ok (slice_to (sorted_floats snd scores) topk).

End Neural.

End Searcher.

(** ** Fixtures of [tester.py] *)

Module Fixtures.
Import Searcher.

(** [list('bce')]: a string as the list of its one-character strings. *)
Fixpoint chars (s : string) : list string :=
  match s with
  | EmptyString => []
  | String c s' => String c EmptyString :: chars s'
  end.

(** The three candidates of [test_calculate_bm25]. *)
Definition bm25_docs : list (TokenizedDocument string) :=
  [ {| doc_id := 0; doc_title := chars "a"; doc_content := chars "bc" |};
    {| doc_id := 1; doc_title := chars "b"; doc_content := chars "cd" |};
    {| doc_id := 2; doc_title := chars "c"; doc_content := chars "de" |} ].

(** The models of [test_calculate_interpolated_sentence_probability]. *)
Definition doc_model : LanguageModel :=
  {| lm_id := Some 0; lm_counter := Counter (chars "abbcccdddd");
     lm_total := 15; lm_smoothing := 1 |}.

Definition coll_model : LanguageModel :=
  {| lm_id := None; lm_counter := Counter (chars "abbcccccddddeee");
     lm_total := 25; lm_smoothing := 2 |}.

(** Two models built without additive constant. *)
Definition raw_doc_model : LanguageModel :=
  {| lm_id := Some 0; lm_counter := Counter (chars "abc");
     lm_total := 3; lm_smoothing := 0 |}.

Definition raw_coll_model : LanguageModel :=
  {| lm_id := None; lm_counter := Counter (chars "abcd");
     lm_total := 4; lm_smoothing := 0 |}.

(** A stand-in for [util]: the vocabulary is its list of words, a query is
    cut into characters, words outside the vocabulary become [<unk>], and
    stored indices are looked up in the vocabulary. *)
#[export] Instance util : Util := {|
  Vocab := list string;
  clean_words := chars;
  replace_unknown_words ws v :=
    (λ w, if bool_decide (w ∈ v) then w else "<unk>"%string) <$> ws;
  convert_itos ids v := (λ i, nth (Z.to_nat i) v "<unk>"%string) <$> ids
|}.

(** A processed collection over the vocabulary [a..e]: the three documents
    [a|bc], [b|cd], [c|de], their index, and language models with additive
    constant 1 (so each total is 3 tokens + 5 words). *)
Definition data : ProcessedData := {|
  vocab := chars "abcde";
  docs :=
    [ {| doc_id := 0; doc_title := [0]; doc_content := [1; 2] |};
      {| doc_id := 1; doc_title := [1]; doc_content := [2; 3] |};
      {| doc_id := 2; doc_title := [2]; doc_content := [3; 4] |} ];
  inverted_index :=
    {[ "a"%string := [0]; "b"%string := [0; 1]; "c"%string := [0; 1; 2];
       "d"%string := [1; 2]; "e"%string := [2] ]};
  language_models :=
    [ {| lm_id := Some 0; lm_counter := Counter (chars "abc");
         lm_total := 8; lm_smoothing := 1 |};
      {| lm_id := Some 1; lm_counter := Counter (chars "bcd");
         lm_total := 8; lm_smoothing := 1 |};
      {| lm_id := Some 2; lm_counter := Counter (chars "cde");
         lm_total := 8; lm_smoothing := 1 |} ];
  collection_model :=
    {| lm_id := None; lm_counter := Counter (chars "abbcccdde");
       lm_total := 24; lm_smoothing := 3 |}
|}.

(** [data] with an index entry that names a document the collection does
    not have. *)
Definition stale_data : ProcessedData := {|
  vocab := vocab data;
  docs := docs data;
  inverted_index := <[ "e"%string := [2; 7] ]> (inverted_index data);
  language_models := language_models data;
  collection_model := collection_model data
|}.

(** [data] in which the id 0 is used twice, by two documents and by two
    models. *)
Definition shadowed_data : ProcessedData := {|
  vocab := vocab data;
  docs :=
    [ {| doc_id := 0; doc_title := [0]; doc_content := [1; 2] |};
      {| doc_id := 0; doc_title := [2]; doc_content := [3; 4] |} ];
  inverted_index := inverted_index data;
  language_models :=
    [ {| lm_id := Some 0; lm_counter := Counter (chars "abc");
         lm_total := 8; lm_smoothing := 1 |};
      {| lm_id := Some 0; lm_counter := Counter (chars "cde");
         lm_total := 8; lm_smoothing := 1 |} ];
  collection_model := collection_model data
|}.

(** A collection whose models carry no additive constant. *)
Definition raw_data : ProcessedData := {|
  vocab := vocab data;
  docs := docs data;
  inverted_index := inverted_index data;
  language_models := [ raw_doc_model ];
  collection_model := raw_coll_model
|}.

(** A ranker that refuses an empty candidate list and otherwise is the
    one above. *)
Definition strict_ranker_ops : RankerOps R R := {|
  calculate_bm25 query hits :=
    match hits with
    | [] => Raise ValueError
    | _ => Ok (Ranker.calculate_bm25 query hits (12/10) (3/4))
    end;
  calculate_interpolated_sentence_probability :=
    Ranker.calculate_interpolated_sentence_probability
|}.

(** A second enumeration of sets, in descending order. *)
Definition descending_iteration : SetIteration :=
  {| set_iter X := reverse (merge_sort Z.le (elements X));
     set_iter_perm X :=
       perm_trans (reverse_Permutation (merge_sort Z.le (elements X)))
                  (merge_sort_Permutation Z.le (elements X)) |}.

(** What the searches return for the query [bce] on [data]: the three
    models score it with 299, 299 and 308 parts of 36864. *)
Definition qlm_ranking : list (option Z * R) :=
  [ (Some 2%Z, (308 / 36864)%R); (Some 0%Z, (299 / 36864)%R);
    (Some 1%Z, (299 / 36864)%R) ].

Definition bm25_ranking : list (Z * R) :=
  [ (2%Z, ln 3); (0%Z, ln (3 / 2)%R); (1%Z, ln (3 / 2)%R) ].

End Fixtures.

Module NeuralFixtures.
Import Searcher Fixtures PrimFloat.
#[local] Open Scope float_scope.

(** A stand-in for the neural model: whatever it is asked, it answers with
    the three scores 0.5, 0.75, 0.5. *)
Definition constant_neural_ops : NeuralOps float :=
  {| ranknet_output _ _ _ _ _ _ := Ok [ 0.5; 0.75; 0.5 ] |}.

(** What [ranknet_lstm_search] returns on it for the three documents of
    [Fixtures.data]. *)
Definition neural_ranking : list (Z * float) :=
  [ (1%Z, 0.75); (0%Z, 0.5); (2%Z, 0.5) ].

End NeuralFixtures.

(** * Properties *)

(** ** Facts about the Python built-ins *)

Module PyFacts.

Lemma bind_ok {A B} (m : result A) (f : A → result B) b :
  (let* a := m in f a) = Ok b ↔ ∃ a, m = Ok a ∧ f a = Ok b.
Proof.
  destruct m as [a|e]; simpl; split.
  - eauto.
  - by intros (? & [= ->] & ?).
  - done.
  - by intros (? & ? & ?).
Qed.

Lemma for_each_ext {A B} (f g : A → result B) l :
  (∀ x, x ∈ l → f x = g x) → for_each f l = for_each g l.
Proof.
  induction l as [|x l IH]; intros Hfg; simpl; [done|].
  rewrite Hfg by left. rewrite IH; [done|].
  intros y Hy. apply Hfg. by right.
Qed.

Lemma for_each_ok {A B} (f : A → result B) (g : A → B) l :
  (∀ x, x ∈ l → f x = Ok (g x)) → for_each f l = Ok (g <$> l).
Proof.
  induction l as [|x l IH]; intros Hf; simpl; [done|].
  rewrite Hf by left. simpl. rewrite IH; [done|].
  intros y Hy. apply Hf. by right.
Qed.

Lemma for_each_Forall2 {A B} (f : A → result B) l ys :
  for_each f l = Ok ys ↔ Forall2 (λ x y, f x = Ok y) l ys.
Proof.
  revert ys. induction l as [|x l IH]; intros ys; simpl.
  - split; [intros [= <-]; constructor | by inversion 1].
  - rewrite bind_ok. split.
    + intros (y & Hy & (ys' & Hys & [= <-])%bind_ok).
      constructor; [done|]. by apply IH.
    + inversion 1 as [|? y ? ys' Hy Hys]; subst.
      exists y. split; [done|]. apply bind_ok. exists ys'.
      split; [by apply IH | done].
Qed.

Lemma for_each_raise {A B} (f : A → result B) l e :
  for_each f l = Raise e → ∃ x, x ∈ l ∧ f x = Raise e.
Proof.
  induction l as [|x l IH]; simpl; [done|].
  destruct (f x) as [y|e'] eqn:Hx; simpl.
  - destruct (for_each f l) as [ys|e'']; simpl; [done|].
    intros [= ->]. destruct IH as (z & ? & ?); [done|].
    exists z. split; [by right | done].
  - intros [= ->]. exists x. split; [by left | done].
Qed.

(** *** [sorted(..., reverse=True)] *)
Section Sorted.
Context {A K : Type} `{ScoreOrder K} (key : A → K).

Lemma ltb_asym (x y : K) : ltb x y = true → ltb y x = false.
Proof.
  intros Hxy. destruct (ltb y x) eqn:Hyx; [|done].
  by rewrite <-(ltb_irrefl x), (ltb_trans x y x).
Qed.

Lemma geb_trans (x y z : K) :
  ltb x y = false → ltb y z = false → ltb x z = false.
Proof.
  intros Hxy Hyz. destruct (ltb x z) eqn:Hxz; [|done].
  destruct (ltb_negtrans x y z Hxz); congruence.
Qed.

Lemma tieb_true (a b : K) :
  tieb a b = true ↔ ltb a b = false ∧ ltb b a = false.
Proof.
  unfold tieb. rewrite andb_true_iff, !negb_true_iff. done.
Qed.

Lemma insert_desc_perm x l : insert_desc ltb key x l ≡ₚ x :: l.
Proof.
  induction l as [|y l IH]; simpl; [done|].
  destruct (ltb (key x) (key y)); [|done].
  by rewrite IH, Permutation_swap.
Qed.

Lemma sorted_reverse_perm l : sorted_reverse ltb key l ≡ₚ l.
Proof.
  induction l as [|x l IH]; simpl; [done|].
  by rewrite insert_desc_perm, IH.
Qed.

Lemma insert_desc_descending x l :
  descending key l → descending key (insert_desc ltb key x l).
Proof.
  unfold descending.
  induction 1 as [|y l Hl IH Hy]; simpl.
  - repeat constructor.
  - destruct (ltb (key x) (key y)) eqn:Hxy.
    + constructor; [done|].
      apply Forall_forall. intros z Hz.
      rewrite insert_desc_perm in Hz. apply elem_of_cons in Hz as [->|Hz].
      * by apply ltb_asym.
      * rewrite Forall_forall in Hy. by apply Hy.
    + constructor; [by constructor|].
      constructor; [done|].
      eapply Forall_impl; [done|]. simpl. intros z Hz.
      by eapply geb_trans.
Qed.

Lemma sorted_reverse_descending l : descending key (sorted_reverse ltb key l).
Proof.
  induction l as [|x l IH]; simpl; [constructor|].
  by apply insert_desc_descending.
Qed.

(** Stability: within every class of tying keys the original order is kept. *)
Lemma insert_desc_stable s x l :
  filter (λ a, tieb s (key a) = true) (insert_desc ltb key x l)
  = filter (λ a, tieb s (key a) = true) (x :: l).
Proof.
  induction l as [|y l IH]; simpl; [done|].
  destruct (ltb (key x) (key y)) eqn:Hxy; [|done].
  rewrite !filter_cons in *. rewrite IH.
  repeat case_decide; try done.
  exfalso.
  repeat match goal with
         | Ht : tieb _ _ = true |- _ => apply tieb_true in Ht as [? ?]
         end.
  destruct (ltb_negtrans _ s _ Hxy); congruence.
Qed.

Lemma sorted_reverse_stable s l :
  filter (λ a, tieb s (key a) = true) (sorted_reverse ltb key l)
  = filter (λ a, tieb s (key a) = true) l.
Proof.
  induction l as [|x l IH]; simpl; [done|].
  by rewrite insert_desc_stable, !filter_cons, IH.
Qed.

(** Insertion leaves the elements already present in their order, and puts
    the new element ahead of any element it is not below. *)
Lemma before_cons (a b x : A) l : before a b l → before a b (x :: l).
Proof. intros (l1 & l2 & l3 & ->). by exists (x :: l1), l2, l3. Qed.

Lemma before_head (a b : A) l : b ∈ l → before a b (a :: l).
Proof. intros (l2 & l3 & ->)%list_elem_of_split. by exists [], l2, l3. Qed.

Lemma before_cons_inv (a b x : A) l :
  before a b (x :: l) → (a = x ∧ b ∈ l) ∨ before a b l.
Proof.
  intros ([|y l1] & l2 & l3 & Heq); simplify_eq/=.
  - left. split; [done|]. set_solver.
  - right. by exists l1, l2, l3.
Qed.

Lemma insert_desc_before a b x l :
  before a b l → before a b (insert_desc ltb key x l).
Proof.
  induction l as [|y l IH]; simpl.
  - by apply before_cons.
  - destruct (ltb (key x) (key y)); [|by apply before_cons].
    intros [[-> Hb]|Hab]%before_cons_inv.
    + apply before_head. rewrite insert_desc_perm. by right.
    + by apply before_cons, IH.
Qed.

Lemma insert_desc_ahead a b l :
  b ∈ l → ltb (key a) (key b) = false → before a b (insert_desc ltb key a l).
Proof.
  intros Hb Hab. induction l as [|y l IH]; simpl.
  - by apply elem_of_nil in Hb.
  - destruct (ltb (key a) (key y)) eqn:Hay; [|by apply before_head].
    apply elem_of_cons in Hb as [->|Hb]; [congruence|].
    by apply before_cons, IH.
Qed.

Lemma sorted_reverse_before a b l :
  before a b l → ltb (key a) (key b) = false →
  before a b (sorted_reverse ltb key l).
Proof.
  intros Hl Hab. induction l as [|x l IH]; simpl.
  - destruct Hl as ([|??] & ? & ? & ?); done.
  - apply before_cons_inv in Hl as [[-> Hb]|Hl].
    + apply insert_desc_ahead; [|done]. by rewrite sorted_reverse_perm.
    + by apply insert_desc_before, IH.
Qed.

Lemma descending_prefix l1 l2 :
  l1 `prefix_of` l2 → descending key l2 → descending key l1.
Proof. intros [k ->]. apply StronglySorted_app_1_l. Qed.

End Sorted.

(** *** [l[:topk]] *)
Section Slice.
Context {A : Type}.
Implicit Types l : list A.

Lemma slice_to_nonneg l k : 0 ≤ k → slice_to l (Some k) = take (Z.to_nat k) l.
Proof. intros. unfold slice_to. by rewrite bool_decide_eq_true_2. Qed.

Lemma slice_to_neg l k :
  k < 0 → slice_to l (Some k) = take (length l - Z.to_nat (- k)) l.
Proof. intros. unfold slice_to. rewrite bool_decide_eq_false_2; [done|lia]. Qed.

Lemma slice_to_prefix l topk : slice_to l topk `prefix_of` l.
Proof.
  destruct topk as [k|]; simpl; [|done].
  case_bool_decide; apply prefix_take.
Qed.

Lemma NoDup_prefix {B} (f : A → B) l1 l2 :
  l1 `prefix_of` l2 → NoDup (f <$> l2) → NoDup (f <$> l1).
Proof. intros [k ->]. rewrite fmap_app. apply NoDup_app. Qed.
End Slice.

(** *** Insertion-ordered [dict] *)
Section Dict.
Context {K V : Type} `{EqDecision K}.
Implicit Types d : list (K * V).

Lemma dict_set_fresh k v d : k ∉ d.*1 → dict_set k v d = d ++ [(k, v)].
Proof.
  induction d as [|[k' v'] d IH]; simpl; [done|].
  rewrite not_elem_of_cons. intros [? ?].
  rewrite decide_False by done. by rewrite IH.
Qed.

Lemma dict_set_present k v d : k ∈ d.*1 → (dict_set k v d).*1 = d.*1.
Proof.
  induction d as [|[k' v'] d IH]; csimpl.
  - by intros ?%elem_of_nil.
  - intros Hk. destruct (decide (k = k')) as [->|]; csimpl; [done|].
    apply elem_of_cons in Hk as [?|?]; [done|]. by rewrite IH.
Qed.

Lemma dict_set_keys k v d :
  (dict_set k v d).*1 = if decide (k ∈ d.*1) then d.*1 else d.*1 ++ [k].
Proof.
  case_decide.
  - by apply dict_set_present.
  - by rewrite dict_set_fresh, fmap_app.
Qed.

Lemma dict_set_NoDup k v d : NoDup d.*1 → NoDup (dict_set k v d).*1.
Proof.
  intros Hd. rewrite dict_set_keys. case_decide; [done|].
  apply NoDup_app. split_and!; [done| |apply NoDup_singleton].
  intros x Hx ->%list_elem_of_singleton. done.
Qed.

Lemma dict_fold_keys (key : V → K) l d k :
  k ∈ (foldl (λ d x, dict_set (key x) x d) d l).*1 ↔ k ∈ d.*1 ∨ k ∈ key <$> l.
Proof.
  revert d. induction l as [|x l IH]; intros d; simpl.
  - rewrite elem_of_nil. tauto.
  - rewrite IH, dict_set_keys, elem_of_cons. case_decide.
    + split; [tauto|]. intros [?|[->|?]]; tauto.
    + rewrite elem_of_app, list_elem_of_singleton. tauto.
Qed.

Lemma dict_fold_NoDup (key : V → K) l d :
  NoDup d.*1 → NoDup (foldl (λ d x, dict_set (key x) x d) d l).*1.
Proof.
  revert d. induction l as [|x l IH]; intros d ?; simpl; [done|].
  by apply IH, dict_set_NoDup.
Qed.

Lemma dict_fold_values (key : V → K) (P : V → Prop) l d :
  Forall P l →
  Forall (λ kv, key kv.2 = kv.1 ∧ P kv.2) d →
  Forall (λ kv, key kv.2 = kv.1 ∧ P kv.2)
         (foldl (λ d x, dict_set (key x) x d) d l).
Proof.
  intros Hl. revert d. induction Hl as [|x l ? ? IH]; intros d Hd; simpl; [done|].
  apply IH. clear IH.
  induction Hd as [|[k' v'] d ? ? IHd]; simpl.
  - by repeat constructor.
  - case_decide; by constructor.
Qed.

Lemma dict_fold_fresh (key : V → K) l d :
  NoDup (key <$> l) → (∀ x, x ∈ l → key x ∉ d.*1) →
  foldl (λ d x, dict_set (key x) x d) d l = d ++ ((λ x, (key x, x)) <$> l).
Proof.
  revert d. induction l as [|x l IH]; intros d Hl Hd; simpl.
  - by rewrite app_nil_r.
  - apply NoDup_cons in Hl as [Hx Hl].
    rewrite dict_set_fresh by (apply Hd; left).
    rewrite IH; [by rewrite <-app_assoc|done|].
    intros y Hy. rewrite fmap_app, elem_of_app. csimpl.
    rewrite list_elem_of_singleton. intros [?|Heq].
    + by eapply Hd; [right|].
    + apply Hx. rewrite <-Heq. by apply list_elem_of_fmap_2.
Qed.

(** The keys of [{key(x): x for x in l}] are the keys of [l], each once;
    every value sits under its own key. *)
Lemma dict_comprehension_keys (key : V → K) l k :
  k ∈ (dict_comprehension key l).*1 ↔ k ∈ key <$> l.
Proof.
  unfold dict_comprehension. rewrite dict_fold_keys, elem_of_nil. tauto.
Qed.

Lemma dict_comprehension_NoDup (key : V → K) l :
  NoDup (dict_comprehension key l).*1.
Proof. apply dict_fold_NoDup. constructor. Qed.

Lemma dict_comprehension_values (key : V → K) l :
  Forall (λ kv, key kv.2 = kv.1 ∧ kv.2 ∈ l) (dict_comprehension key l).
Proof.
  apply (dict_fold_values key (λ v, v ∈ l)); [|constructor].
  by apply Forall_forall.
Qed.

(** With pairwise distinct keys the dictionary lists [l] in its own order. *)
Lemma dict_comprehension_distinct (key : V → K) l :
  NoDup (key <$> l) → dict_comprehension key l = (λ x, (key x, x)) <$> l.
Proof.
  intros. unfold dict_comprehension. rewrite dict_fold_fresh; [done..|].
  intros ? _ ?%elem_of_nil. done.
Qed.
End Dict.

End PyFacts.

(** ** Facts about [searcher.py], for any [util] and [ranker] *)

Module SearcherFacts.
Import PyFacts Searcher.

Section Generic.
Context `{util : Util} `{iteration : SetIteration} {score weight : Type}
  `{order : ScoreOrder score} `{ranker : !RankerOps score weight}.

(** *** [bm25_search]: documents, candidates, hits *)

Lemma docs_fold_id v (l : list (TokenizedDocument Z))
    (m : gmap Z (TokenizedDocument string)) :
  map_Forall (λ i d, doc_id d = i) m →
  map_Forall (λ i d, doc_id d = i)
    (foldl (λ m doc, <[doc_id doc := convert_doc v doc]> m) m l).
Proof.
  revert m. induction l as [|doc l IH]; intros m Hm; simpl; [done|].
  apply IH. by apply map_Forall_insert_2.
Qed.

Lemma docs_fold_dom v (l : list (TokenizedDocument Z))
    (m : gmap Z (TokenizedDocument string)) :
  dom (foldl (λ m doc, <[doc_id doc := convert_doc v doc]> m) m l)
  = dom m ∪ list_to_set (doc_id <$> l).
Proof.
  revert m. induction l as [|doc l IH]; intros m; simpl.
  - set_solver.
  - rewrite IH, dom_insert_L. set_solver.
Qed.

Lemma docs_map_id data i d : docs_map data !! i = Some d → doc_id d = i.
Proof. apply (docs_fold_id _ _ ∅). apply map_Forall_empty. Qed.

Lemma docs_map_dom data : dom (docs_map data) = list_to_set (doc_id <$> docs data).
Proof. unfold docs_map. rewrite docs_fold_dom. set_solver. Qed.

Lemma elem_of_doc_ids index query i :
  i ∈ doc_ids index query ↔ ∃ w, w ∈ query ∧ i ∈ postings index w.
Proof.
  unfold doc_ids. rewrite elem_of_list_to_set, list_elem_of_bind.
  naive_solver.
Qed.

Lemma elem_of_set_iter X i : i ∈ set_iter X ↔ i ∈ X.
Proof. by rewrite set_iter_perm, elem_of_elements. Qed.

Lemma NoDup_set_iter X : NoDup (set_iter X).
Proof. rewrite set_iter_perm. apply NoDup_elements. Qed.

Lemma get_docs_ok (m : gmap Z (TokenizedDocument string)) ids hs :
  map_Forall (λ i d, doc_id d = i) m →
  for_each (get_doc m) ids = Ok hs → doc_id <$> hs = ids.
Proof.
  intros Hm. rewrite for_each_Forall2.
  induction 1 as [|i d ids hs Hd _ IH]; csimpl; [done|].
  unfold get_doc in Hd. destruct (m !! i) as [d'|] eqn:Hi; [|done].
  injection Hd as ->. by rewrite (Hm _ _ Hi), IH.
Qed.

Lemma get_docs_succeeds (m : gmap Z (TokenizedDocument string)) ids :
  succeeds (for_each (get_doc m) ids) ↔ Forall (λ i, i ∈ dom m) ids.
Proof.
  induction ids as [|i ids IH]; simpl.
  - split; [constructor | by eexists].
  - rewrite Forall_cons, <-IH, elem_of_dom. unfold get_doc at 1, succeeds.
    destruct (m !! i) as [d|]; simpl.
    + destruct (for_each _ ids); simpl; split.
      * eauto.
      * eauto.
      * by intros [? ?].
      * by intros [_ [? ?]].
    + split; [by intros [? ?] | by intros [[? ?] _]].
Qed.

Lemma hits_ids data query hs :
  hits data query = Ok hs →
  doc_id <$> hs = set_iter (doc_ids (inverted_index data) query).
Proof. apply get_docs_ok. intros i d. apply docs_map_id. Qed.

Lemma hits_succeeds data query :
  succeeds (hits data query)
  ↔ doc_ids (inverted_index data) query ⊆ list_to_set (doc_id <$> docs data).
Proof.
  unfold hits. rewrite get_docs_succeeds, Forall_forall, docs_map_dom.
  setoid_rewrite elem_of_set_iter. done.
Qed.

Lemma doc_ids_empty index query :
  Forall (λ w, postings index w = []) query → doc_ids index query = ∅.
Proof.
  intros Hq. apply set_eq. intros i.
  rewrite elem_of_doc_ids, elem_of_empty. split; [|done].
  intros (w & Hw & Hi). rewrite Forall_forall in Hq.
  rewrite (Hq _ Hw) in Hi. by apply elem_of_nil in Hi.
Qed.

Lemma set_iter_empty : set_iter ∅ = [].
Proof. apply Permutation_nil_r. by rewrite set_iter_perm, elements_empty. Qed.

(** *** [qlm_search]: the score dictionary *)

Lemma fill_scores_ok cm query alpha normalize items acc out :
  NoDup items.*1 → (∀ k, k ∈ items.*1 → k ∉ acc.*1) →
  fill_scores cm query alpha normalize items acc = Ok out
  ↔ ∃ ss, out = acc ++ ss ∧ Forall2 (scored cm query alpha normalize) items ss.
Proof.
  revert acc. induction items as [|[k m] items IH]; intros acc Hnd Hfresh; simpl.
  - split.
    + intros [= <-]. exists []. by rewrite app_nil_r.
    + intros (ss & -> & ->%Forall2_nil_inv_l). by rewrite app_nil_r.
  - apply NoDup_cons in Hnd as [Hk Hnd]. rewrite bind_ok.
    assert (Hfresh' : ∀ s k', k' ∈ items.*1 → k' ∉ (acc ++ [(k, s)]).*1).
    { intros s k' Hk'. rewrite fmap_app, elem_of_app. csimpl.
      rewrite list_elem_of_singleton. intros [? | ->]; [|done].
      by eapply Hfresh; [right|]. }
    split.
    + intros (s & Hs & Hout).
      rewrite dict_set_fresh in Hout by (apply Hfresh; left).
      apply IH in Hout; [|done|by apply Hfresh'].
      destruct Hout as (ss & -> & Hss). exists ((k, s) :: ss). split; [by rewrite <-app_assoc|]. by constructor.
    + intros (ss & -> & Hss).
      apply Forall2_cons_inv_l in Hss as ([k' s] & ss' & [Hk' Hs] & Hss & ->).
      simpl in *. subst k'. exists s. split; [done|].
      rewrite dict_set_fresh by (apply Hfresh; left).
      apply IH; [done|by apply Hfresh'|].
      exists ss'. by rewrite <-app_assoc.
Qed.

Lemma fill_scores_raise cm query alpha normalize items acc e :
  fill_scores cm query alpha normalize items acc = Raise e →
  ∃ km, km ∈ items ∧
    calculate_interpolated_sentence_probability
      km.2 cm query alpha normalize = Raise e.
Proof.
  revert acc. induction items as [|[k m] items IH]; intros acc; simpl; [done|].
  destruct (calculate_interpolated_sentence_probability m cm query alpha normalize)
    as [s|e'] eqn:Hm; simpl.
  - intros (km & ? & ?)%IH. exists km. split; [by right|done].
  - intros [= ->]. exists (k, m). split; [by left|done].
Qed.

Lemma scores_ok data query alpha normalize ss :
  scores data query alpha normalize = Ok ss
  ↔ Forall2 (scored (collection_model data) query alpha normalize)
            (models_map data) ss.
Proof.
  unfold scores. rewrite fill_scores_ok.
  - naive_solver.
  - apply dict_comprehension_NoDup.
  - intros ? _ ?%elem_of_nil. done.
Qed.

Lemma scored_keys cm query alpha normalize items ss :
  Forall2 (scored cm query alpha normalize) items ss → ss.*1 = items.*1.
Proof. induction 1 as [|? ? ? ? [? ?]]; csimpl; congruence. Qed.

Lemma qlm_search_unfold query data topk alpha normalize :
  qlm_search query data topk alpha normalize
  = let* ss := scores data (cleaned data query) alpha normalize in
    Ok (slice_to (sorted_reverse ltb snd ss) topk).
Proof. done. Qed.

Lemma qlm_search_raise query data topk alpha normalize e :
  qlm_search query data topk alpha normalize = Raise e →
  ∃ km, km ∈ models_map data ∧
    calculate_interpolated_sentence_probability
      km.2 (collection_model data) (cleaned data query) alpha normalize
    = Raise e.
Proof.
  rewrite qlm_search_unfold.
  destruct (scores _ _ _ _) as [ss|e'] eqn:Hs; simpl; [done|].
  intros [= ->]. by eapply fill_scores_raise.
Qed.

Lemma qlm_search_ok query data topk alpha normalize out :
  qlm_search query data topk alpha normalize = Ok out ↔
  ∃ items,
    Forall2 (scored (collection_model data) (cleaned data query) alpha normalize)
            (models_map data) items
    ∧ out = slice_to (sorted_reverse ltb snd items) topk.
Proof.
  rewrite qlm_search_unfold, bind_ok. setoid_rewrite scores_ok.
  naive_solver.
Qed.

Lemma bm25_search_unfold query data topk :
  bm25_search query data topk
  = let* hs := hits data (cleaned data query) in
    match hs with
    | [] => Ok []
    | _ => let* rank := calculate_bm25 (cleaned data query) hs in
           Ok (slice_to rank topk)
    end.
Proof. done. Qed.

(** C1. Whenever [qlm_search] returns, its list is the ranking of the scored
    models cut by [topk]: the scored items follow the iteration order of
    [models_map]; the full ranking is a rearrangement of them in
    non-increasing score order in which two tying items keep the order they
    have in [models_map]; the returned list is that ranking sliced, itself
    non-increasing, and for a count [topk = k >= 0] it is the first [k]
    entries.  When the loaded models have distinct ids, [models_map] lists
    them in the order of [data['language_models']]. *)
Theorem qlm_search_ranked query data topk alpha normalize out :
  qlm_search query data topk alpha normalize = Ok out →
  ∃ items full,
    Forall2 (scored (collection_model data) (cleaned data query) alpha normalize)
            (models_map data) items
    ∧ (NoDup (lm_id <$> language_models data) →
       (models_map data).*2 = language_models data)
    ∧ full ≡ₚ items
    ∧ descending snd full
    ∧ (∀ a b, before a b items → tieb a.2 b.2 = true → before a b full)
    ∧ (∀ s, filter (λ ks, tieb s ks.2 = true) full
            = filter (λ ks, tieb s ks.2 = true) items)
    ∧ out = slice_to full topk
    ∧ descending snd out
    ∧ (∀ k, topk = Some k → 0 ≤ k → out = take (Z.to_nat k) full).
Proof.
  intros (items & Hitems & ->)%qlm_search_ok.
  exists items, (sorted_reverse ltb snd items). split_and!.
  - done.
  - intros Hnd. unfold models_map.
    rewrite dict_comprehension_distinct by done.
    rewrite <-list_fmap_compose. apply list_fmap_id.
  - apply sorted_reverse_perm.
  - apply sorted_reverse_descending.
  - intros a b Hab [Hlt _]%tieb_true. by apply sorted_reverse_before.
  - intros s. apply (sorted_reverse_stable snd).
  - done.
  - eapply descending_prefix; [apply slice_to_prefix|].
    apply sorted_reverse_descending.
  - intros k -> Hk. by apply slice_to_nonneg.
Qed.

(** C3. The documents handed to [calculate_bm25] are those whose id is in
    the postings of at least one query token, each once; they are what
    [bm25_search] ranks. *)
Theorem bm25_search_candidates query data topk hs :
  hits data (cleaned data query) = Ok hs →
  (∀ i, i ∈ doc_id <$> hs
        ↔ ∃ w, w ∈ cleaned data query ∧ i ∈ postings (inverted_index data) w)
  ∧ NoDup (doc_id <$> hs)
  ∧ bm25_search query data topk
    = match hs with
      | [] => Ok []
      | _ => let* rank := calculate_bm25 (cleaned data query) hs in
             Ok (slice_to rank topk)
      end.
Proof.
  intros Hhs. split_and!.
  - intros i. by rewrite (hits_ids _ _ _ Hhs), elem_of_set_iter, elem_of_doc_ids.
  - rewrite (hits_ids _ _ _ Hhs). apply NoDup_set_iter.
  - by rewrite bm25_search_unfold, Hhs.
Qed.

(** C4. With an empty query, or when no query token has postings,
    [bm25_search] returns the empty list. *)
Theorem bm25_search_no_candidates query data topk :
  cleaned data query = []
  ∨ Forall (λ w, postings (inverted_index data) w = []) (cleaned data query) →
  bm25_search query data topk = Ok [].
Proof.
  intros Hq.
  assert (Hall : Forall (λ w, postings (inverted_index data) w = [])
                        (cleaned data query)).
  { destruct Hq as [-> | ?]; [constructor | done]. }
  rewrite bm25_search_unfold. unfold hits.
  by rewrite (doc_ids_empty _ _ Hall), set_iter_empty.
Qed.

(** C6, as the code has it. [qlm_search] checks neither [topk] nor [alpha]:
    a negative [topk = -n] returns the full ranking without its last [n]
    entries, and the call raises only what
    [calculate_interpolated_sentence_probability] raises for one of the
    models, [alpha] being passed on as given. *)
Theorem qlm_search_unchecked query data alpha normalize :
  (∀ full n, qlm_search query data None alpha normalize = Ok full → 0 < n →
     qlm_search query data (Some (- n)) alpha normalize
     = Ok (take (length full - Z.to_nat n) full))
  ∧ (∀ topk e, qlm_search query data topk alpha normalize = Raise e →
       ∃ km, km ∈ models_map data ∧
         calculate_interpolated_sentence_probability
           km.2 (collection_model data) (cleaned data query) alpha normalize
         = Raise e).
Proof.
  split.
  - intros full n (items & Hitems & ->)%qlm_search_ok Hn.
    apply qlm_search_ok. exists items. split; [done|].
    rewrite slice_to_neg by lia. simpl. by rewrite Z.opp_involutive.
  - intros topk e. apply qlm_search_raise.
Qed.

End Generic.
End SearcherFacts.

(** ** Enclosures of [ln 3] and [ln (3/2)] *)

Module LogBoundsFacts.
Import LogBounds.
#[local] Open Scope R_scope.

Lemma Rdiv_le_l a b s : 0 < s → a <= b * s → a / s <= b.
Proof.
  intros Hs Hab. replace b with (b * s / s) by (field; lra).
  apply Rmult_le_compat_r; [|done]. left. by apply Rinv_0_lt_compat.
Qed.

Lemma Rdiv_le_r a b s : 0 < s → a * s <= b → a <= b / s.
Proof.
  intros Hs Hab. replace a with (a * s / s) by (field; lra).
  apply Rmult_le_compat_r; [|done]. left. by apply Rinv_0_lt_compat.
Qed.

Lemma Rdiv_lt_r a b s : 0 < s → a * s < b → a < b / s.
Proof.
  intros Hs Hab. replace a with (a * s / s) by (field; lra).
  apply Rmult_lt_compat_r; [|done]. by apply Rinv_0_lt_compat.
Qed.

Lemma sq_iter_pos k x : 0 < x → 0 < sq_iter k x.
Proof. intros Hx. induction k; simpl; [done|]. by apply Rmult_lt_0_compat. Qed.

Lemma ln_sq_iter k x : 0 < x → ln (sq_iter k x) = 2 ^ k * ln x.
Proof.
  intros Hx. induction k as [|k IH]; simpl; [lra|].
  rewrite ln_mult by by apply sq_iter_pos. rewrite IH. lra.
Qed.

Lemma ln_le_sub x : 0 < x → ln x <= x - 1.
Proof.
  intros Hx. pose proof (exp_ineq1_le (ln x)) as Hexp.
  rewrite exp_ln in Hexp by done. lra.
Qed.

(** Rounding down at every squaring keeps the integer evaluation below the
    exact one. *)
Lemma sqz_iter_le s k x :
  (0 < s)%Z → (0 ≤ x)%Z →
  (0 ≤ sqz_iter s k x)%Z ∧
  IZR (sqz_iter s k x) / IZR s <= sq_iter k (IZR x / IZR s).
Proof.
  intros Hs Hx. assert (Hs' : 0 < IZR s) by by apply IZR_lt.
  induction k as [|k [IH0 IH]]; simpl.
  - split; [done|lra].
  - set (y := sqz_iter s k x) in *. set (Y := sq_iter k (IZR x / IZR s)) in *.
    split; [apply Z.div_pos; nia|].
    assert (Hy : 0 <= IZR y / IZR s).
    { apply Rdiv_le_r; [done|]. rewrite Rmult_0_l. by apply IZR_le. }
    apply Rdiv_le_l; [done|].
    apply Rle_trans with (IZR y / IZR s * (IZR y / IZR s) * IZR s).
    + replace (IZR y / IZR s * (IZR y / IZR s) * IZR s)
        with (IZR y * IZR y / IZR s) by (field; lra).
      apply Rdiv_le_r; [done|]. rewrite <- !mult_IZR. apply IZR_le.
      rewrite Z.mul_comm. by apply Z.mul_div_le.
    + apply Rmult_le_compat_r; [lra|]. by apply Rmult_le_compat.
Qed.

(** [ln (p/q) < B/D] follows from [p/q < (1 + (B/D)/2^k)^(2^k)], checked on
    integers scaled by [D * 2^k * M]; it rests on [ln x <= x - 1]. *)
Lemma ln_lt_by_squaring (p q B D M : Z) (k : nat) :
  (0 < p)%Z → (0 < q)%Z → (0 < D)%Z → (0 < M)%Z →
  (0 < D * 2 ^ Z.of_nat k + B)%Z →
  (p * (D * 2 ^ Z.of_nat k * M)
   < q * sqz_iter (D * 2 ^ Z.of_nat k * M) k ((D * 2 ^ Z.of_nat k + B) * M))%Z →
  ln (IZR p / IZR q) < IZR B / IZR D.
Proof.
  intros Hp Hq HD HM Hx Hlt.
  set (N := (2 ^ Z.of_nat k)%Z) in *.
  assert (HN : (0 < N)%Z) by (apply Z.pow_pos_nonneg; lia).
  assert (HNR : IZR N = 2 ^ k) by (unfold N; by rewrite <-pow_IZR).
  set (s := (D * N * M)%Z) in *. set (x := ((D * N + B) * M)%Z) in *.
  assert (Hs : (0 < s)%Z) by (unfold s; nia).
  destruct (sqz_iter_le s k x Hs) as [_ Hle]; [unfold x; nia|].
  apply IZR_lt in Hp as Hp', Hq as Hq', HD as HD', HM as HM', Hs as Hs',
    HN as HN', Hx as Hx'.
  assert (Hc : IZR x / IZR s = 1 + IZR B / IZR D / 2 ^ k).
  { unfold x, s. rewrite !mult_IZR, plus_IZR, mult_IZR, <-HNR. field. lra. }
  assert (Hc0 : 0 < 1 + IZR B / IZR D / 2 ^ k).
  { rewrite <-Hc. apply Rdiv_lt_0_compat; [|done]. unfold x. rewrite mult_IZR.
    by apply Rmult_lt_0_compat. }
  rewrite Hc in Hle.
  assert (Ht : IZR p / IZR q < sq_iter k (1 + IZR B / IZR D / 2 ^ k)).
  { eapply Rlt_le_trans; [|exact Hle].
    apply IZR_lt in Hlt. rewrite !mult_IZR in Hlt.
    apply Rdiv_lt_r; [done|]. apply Rmult_lt_reg_r with (IZR q); [done|].
    replace (IZR p / IZR q * IZR s * IZR q) with (IZR p * IZR s) by (field; lra).
    lra. }
  apply ln_increasing in Ht; [|by apply Rdiv_lt_0_compat].
  rewrite ln_sq_iter in Ht by done.
  pose proof (ln_le_sub _ Hc0) as Hln.
  assert (0 < 2 ^ k) by by rewrite <-HNR.
  eapply Rlt_le_trans; [exact Ht|].
  replace (IZR B / IZR D)
    with (2 ^ k * (1 + IZR B / IZR D / 2 ^ k - 1)) at 2 by (field; lra).
  apply Rmult_le_compat_l; lra.
Qed.

Ltac by_squaring p q B D :=
  apply (ln_lt_by_squaring p q B D (2 ^ 100) 80); vm_compute; reflexivity.

End LogBoundsFacts.

(** ** Facts about the ranking functions *)

Module RankerFacts.
Import PyFacts Ranker Fixtures.
#[local] Open Scope R_scope.

(** Evaluation of counts and integer arithmetic inside a real expression. *)
Ltac eval_counts :=
  repeat match goal with
  | |- context [multiplicity ?w ?c] =>
      let v := eval vm_compute in (multiplicity w c) in
      change (multiplicity w c) with v
  | |- context [INR (length ?l)] =>
      let v := eval vm_compute in (length l) in
      change (length l) with v
  end;
  repeat case_decide; try done;
  rewrite ?INR_IZR_INZ;
  repeat match goal with
  | |- context [IZR (?a + ?b)] =>
      let v := eval vm_compute in (a + b)%Z in change (a + b)%Z with v
  | |- context [Z.of_nat ?n] =>
      let v := eval vm_compute in (Z.of_nat n) in change (Z.of_nat n) with v
  end.

Ltac eval_probability :=
  unfold calculate_interpolated_sentence_probability,
    calculate_sentence_probability, calculate_word_probability,
    interpolated_word_probability, word_probability, log, combine;
  simpl; eval_counts.

(** Comparisons met while sorting closed real scores. *)
Ltac eval_sort := repeat (simpl; case_bool_decide; try lra); try reflexivity.

(** *** The fixtures of [test_ranker] *)

Example test_calculate_word_probability :
  calculate_word_probability doc_model "e" false = Ok (1 / 15).
Proof. eval_probability; f_equal; lra. Qed.

(** The literal [count / total] gives that word the probability 0, which
    is not what [test_calculate_word_probability] expects. *)
Example word_probability_as_worded_differs :
  word_probability_as_worded doc_model "e" = 0
  ∧ word_probability doc_model "e" = 1 / 15.
Proof.
  unfold word_probability_as_worded, word_probability. simpl.
  eval_counts. split; lra.
Qed.

Example test_calculate_sentence_probability :
  calculate_sentence_probability doc_model (chars "bde") false = Ok (1 / 225).
Proof. eval_probability; f_equal; lra. Qed.

Example test_calculate_interpolated_sentence_probability :
  calculate_interpolated_sentence_probability
    doc_model coll_model (chars "bde") (3 / 4) false
  = Ok (589 / 100000).
Proof. eval_probability; f_equal; lra. Qed.

Example test_calculate_tf :
  calculate_tf {| doc_id := 0; doc_title := chars "abcd";
                  doc_content := chars "defg" |}
  = Counter (chars "abcddefg").
Proof. done. Qed.

Example test_calculate_df :
  calculate_df
    [ {| doc_id := 0; doc_title := chars "abc"; doc_content := chars "baa" |};
      {| doc_id := 1; doc_title := chars "bcd"; doc_content := chars "dbd" |};
      {| doc_id := 2; doc_title := chars "cde"; doc_content := chars "eec" |} ]
  = Counter (chars "abbcccdde").
Proof. by vm_compute. Qed.

Example test_calculate_idf :
  (λ t, calculate_idf (Counter (chars "abbcccdde")) 3 t) <$> chars "abcde"
  = [ln 3; ln (3 / 2); 0; ln (3 / 2); ln 3].
Proof.
  unfold calculate_idf. simpl. eval_counts.
  replace ((1 + 1 + 1) / 3) with 1 by lra. rewrite ln_1.
  repeat f_equal; lra.
Qed.

(** *** Sums and products *)

Lemma prod_list_zero (l : list R) : 0 ∈ l → prod_list l = 0.
Proof.
  induction l as [|x l IH]; simpl.
  - by intros ?%elem_of_nil.
  - intros [<-|Hl]%elem_of_cons; [lra|]. rewrite IH by done. lra.
Qed.

Lemma log_raise p e : log p = Raise e → e = ValueError.
Proof. unfold log. case_decide; congruence. Qed.

Lemma log_nonpositive p : p <= 0 → log p = Raise ValueError.
Proof. intros. unfold log. rewrite decide_False; [done|lra]. Qed.

Lemma for_each_fails {A B} (f : A → result B) l x e :
  x ∈ l → f x = Raise e → ∃ e', for_each f l = Raise e'.
Proof.
  intros Hx Hfx. induction l as [|y l IH]; simpl.
  - by apply elem_of_nil in Hx.
  - destruct (f y) as [b|e1] eqn:Hy; simpl; [|by eexists].
    apply elem_of_cons in Hx as [->|Hx]; [congruence|].
    destruct (IH Hx) as [e' ->]. by eexists.
Qed.

(** *** [calculate_bm25] *)

Lemma calculate_bm25_ids query docs k1 b :
  (calculate_bm25 query docs k1 b).*1 ≡ₚ doc_id <$> docs.
Proof.
  unfold calculate_bm25. rewrite sorted_reverse_perm.
  rewrite <-list_fmap_compose. done.
Qed.

Lemma calculate_bm25_descending query docs k1 b :
  descending snd (calculate_bm25 query docs k1 b).
Proof. apply sorted_reverse_descending. Qed.

Lemma calculate_bm25_nil query k1 b : calculate_bm25 query [] k1 b = [].
Proof. done. Qed.

(** *** Interpolation *)

Lemma interpolated_sentence_unfold model collection_model sentence alpha :
  calculate_interpolated_sentence_probability
    model collection_model sentence alpha false
  = Ok (prod_list
          (interpolated_word_probability model collection_model alpha
             <$> sentence)).
Proof.
  unfold calculate_interpolated_sentence_probability.
  by rewrite (for_each_ok _
    (interpolated_word_probability model collection_model alpha)).
Qed.

(** C7. With [alpha = 1] the interpolated sentence probability is the
    sentence probability under the document model alone, with [alpha = 0]
    the one under the collection model alone, in both the plain and the
    logarithmic mode. *)
Theorem interpolated_alpha_endpoints model collection_model sentence normalize :
  calculate_interpolated_sentence_probability
    model collection_model sentence 1 normalize
  = calculate_sentence_probability model sentence normalize
  ∧ calculate_interpolated_sentence_probability
      model collection_model sentence 0 normalize
    = calculate_sentence_probability collection_model sentence normalize.
Proof.
  unfold calculate_interpolated_sentence_probability,
    calculate_sentence_probability, calculate_word_probability.
  split; f_equal; apply for_each_ext; intros w _; simpl.
  - replace (interpolated_word_probability model collection_model 1 w)
      with (word_probability model w); [done|].
    unfold interpolated_word_probability. lra.
  - replace (interpolated_word_probability model collection_model 0 w)
      with (word_probability collection_model w); [done|].
    unfold interpolated_word_probability. lra.
Qed.

Lemma interpolated_zero model collection_model sentence alpha w :
  w ∈ sentence →
  interpolated_word_probability model collection_model alpha w = 0 →
  calculate_interpolated_sentence_probability
    model collection_model sentence alpha false = Ok 0
  ∧ calculate_interpolated_sentence_probability
      model collection_model sentence alpha true = Raise ValueError.
Proof.
  intros Hw Hzero. split.
  - rewrite interpolated_sentence_unfold. f_equal.
    apply prod_list_zero. rewrite <-Hzero. by apply list_elem_of_fmap_2.
  - unfold calculate_interpolated_sentence_probability.
    edestruct (for_each_fails
      (λ w, log (interpolated_word_probability model collection_model alpha w))
      sentence w) as [e He]; [done| |].
    { rewrite Hzero. apply log_nonpositive. lra. }
    simpl. rewrite He. simpl.
    apply for_each_raise in He as (w' & _ & ->%log_raise). done.
Qed.

Lemma unseen_interpolated model collection_model alpha w :
  multiplicity w (lm_counter model) = 0%nat →
  multiplicity w (lm_counter collection_model) = 0%nat →
  interpolated_word_probability model collection_model alpha w
  = alpha * (IZR (lm_smoothing model) / IZR (lm_total model))
    + (1 - alpha)
      * (IZR (lm_smoothing collection_model) / IZR (lm_total collection_model)).
Proof.
  intros Hd Hc. unfold interpolated_word_probability, word_probability.
  by rewrite Hd, Hc.
Qed.

Lemma weighted_ratio_zero (a s t : R) :
  0 <= a → 0 <= s → 0 < t → 0 <= a * (s / t) ∧ (a * (s / t) = 0 ↔ a * s = 0).
Proof.
  intros Ha Hs Ht.
  assert (Hinv : 0 < / t) by by apply Rinv_0_lt_compat.
  assert (Hprod : 0 <= a * s) by by apply Rmult_le_pos.
  replace (a * (s / t)) with (a * s * / t) by (unfold Rdiv; ring).
  split; [by apply Rmult_le_pos; [|left]|]. split.
  - intros [Hz|Hz]%Rmult_integral; [done|lra].
  - intros ->. ring.
Qed.

(** Outside the unit interval the two terms can cancel: on the models of
    [tester.py], at [alpha = 6], the token [f] gets probability 0. *)
Example interpolation_cancels :
  interpolated_word_probability doc_model coll_model 6 "f" = 0.
Proof. eval_probability. lra. Qed.

(** C8, as the models have it. A token unseen by both models has the
    interpolated probability [alpha * s_d / T_d + (1 - alpha) * s_c / T_c],
    [s] and [T] being a model's additive constant and total; for [alpha] in
    [[0,1]], non-negative constants and positive totals this value is never
    negative, and it is 0 exactly when [alpha * s_d = 0] and
    [(1 - alpha) * s_c = 0].  When the interpolated probability of some
    query token, seen or not, is 0, the plain sentence probability is
    exactly 0 and the logarithmic one is a domain error. *)
Theorem unseen_token_probability model collection_model sentence alpha w :
  (multiplicity w (lm_counter model) = 0%nat →
   multiplicity w (lm_counter collection_model) = 0%nat →
   interpolated_word_probability model collection_model alpha w
   = alpha * (IZR (lm_smoothing model) / IZR (lm_total model))
     + (1 - alpha)
       * (IZR (lm_smoothing collection_model)
          / IZR (lm_total collection_model))
   ∧ (0 <= alpha <= 1 →
      (0 ≤ lm_smoothing model)%Z → (0 ≤ lm_smoothing collection_model)%Z →
      (0 < lm_total model)%Z → (0 < lm_total collection_model)%Z →
      0 <= interpolated_word_probability model collection_model alpha w
      ∧ (interpolated_word_probability model collection_model alpha w = 0
         ↔ alpha * IZR (lm_smoothing model) = 0
           ∧ (1 - alpha) * IZR (lm_smoothing collection_model) = 0)))
  ∧ (w ∈ sentence →
     interpolated_word_probability model collection_model alpha w = 0 →
     calculate_interpolated_sentence_probability
       model collection_model sentence alpha false = Ok 0
     ∧ calculate_interpolated_sentence_probability
         model collection_model sentence alpha true = Raise ValueError).
Proof.
  split; [|apply interpolated_zero].
  intros Hd Hc. split; [by apply unseen_interpolated|].
  intros [Ha0 Ha1] Hsd%IZR_le Hsc%IZR_le Htd%IZR_lt Htc%IZR_lt.
  rewrite (unseen_interpolated _ _ _ _ Hd Hc).
  destruct (weighted_ratio_zero alpha _ _ Ha0 Hsd Htd) as [Hd0 Hdz].
  destruct (weighted_ratio_zero (1 - alpha) _ _ ltac:(lra) Hsc Htc)
    as [Hc0 Hcz].
  split; [lra|]. rewrite <-Hdz, <-Hcz. split; [|lra]. intros Hsum. lra.
Qed.

Lemma bm25_fixture_ranking :
  calculate_bm25 (chars "bce") bm25_docs (12 / 10) (3 / 4)
  = [(2%Z, ln 3); (0%Z, ln (3 / 2)); (1%Z, ln (3 / 2))].
Proof.
  unfold calculate_bm25.
  set (scores := map _ bm25_docs).
  assert (Hs : scores = [(0%Z, ln (3 / 2)); (1%Z, ln (3 / 2)); (2%Z, ln 3)]).
  { subst scores. simpl map.
    unfold bm25_term, calculate_idf, calculate_tf, sum_list. simpl foldr.
    eval_counts.
    replace (3 / 3) with 1 by lra. replace (3 / 1) with 3 by lra.
    rewrite ln_1. repeat f_equal; lra. }
  rewrite Hs.
  assert (ln (3 / 2) < ln 3) by (apply ln_increasing; lra).
  eval_sort.
Qed.

End RankerFacts.

(** ** The fixture scores as binary64 numbers *)

Module RankerFloatFacts.
Import LogBoundsFacts RankerFloat Fixtures.
Import PrimFloat FloatOps SpecFloat.
#[local] Open Scope R_scope.

Lemma powerRZ_2_neg (n : positive) : powerRZ 2 (Z.neg n) = / IZR (2 ^ Z.pos n).
Proof. simpl. by rewrite pow_IZR, positive_nat_Z. Qed.

(** [1.0986122886681098] is [4947709893870347 * 2^-52], and [ln 3] is less
    than [2^-53] away from it. *)
Lemma ln_3_nearest : nearest_binary64 (ln 3) 1.0986122886681098%float.
Proof.
  unfold nearest_binary64, binary64_value.
  replace (Prim2SF 1.0986122886681098%float)
    with (S754_finite false 4947709893870347 (-52)) by by vm_compute.
  split; [done|].
  change (-52 - 1)%Z with (Z.neg 53). rewrite !powerRZ_2_neg.
  change (2 ^ 52)%Z with 4503599627370496%Z.
  change (2 ^ 53)%Z with 9007199254740992%Z.
  assert (Hup : ln (3 / 1) < 9895419787740695 / 9007199254740992)
    by by_squaring 3%Z 1%Z 9895419787740695%Z 9007199254740992%Z.
  assert (Hlo : ln (1 / 3) < (-9895419787740693) / 9007199254740992)
    by by_squaring 1%Z 3%Z (-9895419787740693)%Z 9007199254740992%Z.
  replace (3 / 1) with 3 in Hup by lra.
  replace (1 / 3) with (/ 3) in Hlo by lra. rewrite ln_Rinv in Hlo by lra.
  apply Rabs_def1; lra.
Qed.

(** [0.4054651081081644] is [7304210039150668 * 2^-54], and [ln (3/2)] is
    less than [2^-55] away from it. *)
Lemma ln_3_2_nearest : nearest_binary64 (ln (3 / 2)) 0.4054651081081644%float.
Proof.
  unfold nearest_binary64, binary64_value.
  replace (Prim2SF 0.4054651081081644%float)
    with (S754_finite false 7304210039150668 (-54)) by by vm_compute.
  split; [done|].
  change (-54 - 1)%Z with (Z.neg 55). rewrite !powerRZ_2_neg.
  change (2 ^ 54)%Z with 18014398509481984%Z.
  change (2 ^ 55)%Z with 36028797018963968%Z.
  assert (Hup : ln (3 / 2) < 14608420078301337 / 36028797018963968)
    by by_squaring 3%Z 2%Z 14608420078301337%Z 36028797018963968%Z.
  assert (Hlo : ln (2 / 3) < (-14608420078301335) / 36028797018963968)
    by by_squaring 2%Z 3%Z (-14608420078301335)%Z 36028797018963968%Z.
  replace (2 / 3) with (/ (3 / 2)) in Hlo by lra.
  rewrite ln_Rinv in Hlo by lra.
  apply Rabs_def1; lra.
Qed.

Lemma powerRZ_half e : powerRZ 2 (e - 1) = powerRZ 2 e / 2.
Proof.
  replace (e - 1)%Z with (e + -1)%Z by lia.
  rewrite powerRZ_add by lra. simpl. lra.
Qed.

Lemma powerRZ_double e1 e2 : (e1 < e2)%Z → 2 * powerRZ 2 e1 <= powerRZ 2 e2.
Proof.
  intros He. replace e2 with (e1 + 1 + (e2 - e1 - 1))%Z by lia.
  rewrite !powerRZ_add by lra.
  assert (H1 : 1 <= powerRZ 2 (e2 - e1 - 1)).
  { destruct (e2 - e1 - 1)%Z as [|p|p] eqn:Hp; [simpl; lra| |lia].
    simpl. apply pow_R1_Rle. lra. }
  assert (H0 : 0 < powerRZ 2 e1) by (apply powerRZ_lt; lra).
  simpl (powerRZ 2 1). nra.
Qed.

(** Two normal mantissas scaled by different powers of two are further
    apart than the two half-units together. *)
Lemma mantissas_apart (m1 m2 : Z) (a c : R) :
  (2 ^ 52 < m1 < 2 ^ 53)%Z → (2 ^ 52 < m2 < 2 ^ 53)%Z →
  0 < a → 2 * a <= c →
  a + c <= IZR m2 * c - IZR m1 * a.
Proof.
  intros [Hl1 Hu1] [Hl2 Hu2] Ha Hac.
  assert (H1 : IZR m1 <= 9007199254740991).
  { apply IZR_le. change (2 ^ 53)%Z with 9007199254740992%Z in Hu1. lia. }
  assert (H2 : 4503599627370497 <= IZR m2).
  { apply IZR_le. change (2 ^ 52)%Z with 4503599627370496%Z in Hl2. lia. }
  assert (IZR m1 * a <= 9007199254740991 * a) by (apply Rmult_le_compat_r; lra).
  assert (4503599627370497 * c <= IZR m2 * c) by (apply Rmult_le_compat_r; lra).
  lra.
Qed.

(** At most one binary64 number is nearest to a real in this sense. *)
Lemma nearest_binary64_unique x f g :
  nearest_binary64 x f → nearest_binary64 x g → f = g.
Proof.
  unfold nearest_binary64, binary64_value.
  destruct (Prim2SF f) as [| | |s1 m1 e1] eqn:Hf; try done.
  destruct (Prim2SF g) as [| | |s2 m2 e2] eqn:Hg; try done.
  rewrite !powerRZ_half. intros [Hm1 H1] [Hm2 H2].
  assert (Ha : 0 < powerRZ 2 e1) by (apply powerRZ_lt; lra).
  assert (Hc : 0 < powerRZ 2 e2) by (apply powerRZ_lt; lra).
  assert (Hp1 : 0 < IZR (Z.pos m1) * powerRZ 2 e1).
  { apply Rmult_lt_0_compat; [|done]. by apply IZR_lt. }
  assert (Hp2 : 0 < IZR (Z.pos m2) * powerRZ 2 e2).
  { apply Rmult_lt_0_compat; [|done]. by apply IZR_lt. }
  apply Rabs_def2 in H1, H2.
  assert (Heq : S754_finite s1 m1 e1 = S754_finite s2 m2 e2).
  { destruct (Z.lt_trichotomy e1 e2) as [He|[He|He]].
    - pose proof (powerRZ_double _ _ He) as Hac.
      pose proof (mantissas_apart _ _ _ _ Hm1 Hm2 Ha Hac).
      exfalso. clear Hf Hg Hm1 Hm2 He.
      generalize dependent (powerRZ 2 e1). generalize dependent (powerRZ 2 e2).
      generalize dependent (IZR (Z.pos m1)).
      generalize dependent (IZR (Z.pos m2)).
      intros. destruct s1, s2; lra.
    - subst e2.
      assert (Hm : Z.pos m1 = Z.pos m2).
      { assert (Hlt : IZR (Z.pos m1 - Z.pos m2) < 1
                      ∧ IZR (Z.pos m2 - Z.pos m1) < 1).
        { rewrite !minus_IZR. clear Hf Hg Hm1 Hm2.
          generalize dependent (powerRZ 2 e1).
          generalize dependent (IZR (Z.pos m1)).
          generalize dependent (IZR (Z.pos m2)).
          intros. split; destruct s1, s2; nra. }
        destruct Hlt as [Hlt1%lt_IZR Hlt2%lt_IZR]. lia. }
      injection Hm as ->. f_equal.
      assert (Hbig : powerRZ 2 e1 <= IZR (Z.pos m2) * powerRZ 2 e1).
      { rewrite <-(Rmult_1_l (powerRZ 2 e1)) at 1.
        apply Rmult_le_compat_r; [lra|]. apply IZR_le. lia. }
      clear Hf Hg Hm1 Hm2.
      generalize dependent (powerRZ 2 e1).
      generalize dependent (IZR (Z.pos m2)).
      intros. destruct s1, s2; try done; exfalso; lra.
    - pose proof (powerRZ_double _ _ He) as Hac.
      pose proof (mantissas_apart _ _ _ _ Hm2 Hm1 Hc Hac).
      exfalso. clear Hf Hg Hm1 Hm2 He.
      generalize dependent (powerRZ 2 e1). generalize dependent (powerRZ 2 e2).
      generalize dependent (IZR (Z.pos m1)).
      generalize dependent (IZR (Z.pos m2)).
      intros. destruct s1, s2; lra. }
  rewrite <-(FloatAxioms.SF2Prim_Prim2SF f), <-(FloatAxioms.SF2Prim_Prim2SF g).
  congruence.
Qed.

(** With these logarithms the float evaluation of the fixture is exact:
    every factor [tf * (k1 + 1) / (tf + k1 * ...)] is [2.2 / 2.2]. *)
Lemma bm25_fixture_floats (log : float → float) :
  log 3%float = 1.0986122886681098%float →
  log 1.5%float = 0.4054651081081644%float →
  log 1%float = 0%float →
  RankerFloat.calculate_bm25 log (chars "bce") bm25_docs 1.2 0.75
  = [ (2%Z, 1.0986122886681098%float); (0%Z, 0.4054651081081644%float);
      (1%Z, 0.4054651081081644%float) ].
Proof.
  intros H3 H15 H1. vm_compute. rewrite H3, H15, H1. by vm_compute.
Qed.

(** C9. The fixture of [test_calculate_bm25].  On real numbers the ranking
    is document 2 with score [ln 3], then documents 0 and 1, in that order,
    with the same score [ln (3/2)].  The doubles [1.0986122886681098] and
    [0.4054651081081644] are the binary64 numbers nearest to these two
    reals.  And in binary64 arithmetic the function returns exactly
    [[(2, 1.0986122886681098), (0, 0.4054651081081644),
    (1, 0.4054651081081644)]], both when [math.log] returns these doubles
    at 3 and 3/2 and 0 at 1 (the values [test_calculate_idf] records for
    the same documents) and, which then is the same, when it returns the
    nearest binary64 number at 3 and 3/2 and 0 at 1. *)
Theorem calculate_bm25_fixture :
  Ranker.calculate_bm25 (chars "bce") bm25_docs (12 / 10) (3 / 4)
  = [(2%Z, ln 3); (0%Z, ln (3 / 2)); (1%Z, ln (3 / 2))]
  ∧ RankerFloat.nearest_binary64 (ln 3) 1.0986122886681098%float
  ∧ RankerFloat.nearest_binary64 (ln (3 / 2)) 0.4054651081081644%float
  ∧ (∀ log : float → float,
       log 3%float = 1.0986122886681098%float →
       log 1.5%float = 0.4054651081081644%float →
       log 1%float = 0%float →
       RankerFloat.calculate_bm25 log (chars "bce") bm25_docs 1.2 0.75
       = [ (2%Z, 1.0986122886681098%float); (0%Z, 0.4054651081081644%float);
           (1%Z, 0.4054651081081644%float) ])
  ∧ (∀ log : float → float,
       RankerFloat.nearest_binary64 (ln 3) (log 3%float) →
       RankerFloat.nearest_binary64 (ln (3 / 2)) (log 1.5%float) →
       log 1%float = 0%float →
       RankerFloat.calculate_bm25 log (chars "bce") bm25_docs 1.2 0.75
       = [ (2%Z, 1.0986122886681098%float); (0%Z, 0.4054651081081644%float);
           (1%Z, 0.4054651081081644%float) ]).
Proof.
  split_and!.
  - apply RankerFacts.bm25_fixture_ranking.
  - apply ln_3_nearest.
  - apply ln_3_2_nearest.
  - apply bm25_fixture_floats.
  - intros log H3 H15 H1. apply bm25_fixture_floats; [| |done].
    + exact (nearest_binary64_unique _ _ _ H3 ln_3_nearest).
    + exact (nearest_binary64_unique _ _ _ H15 ln_3_2_nearest).
Qed.

(** C9 on the logarithms that [test_calculate_idf] records. *)
Lemma calculate_bm25_fixture_witness :
  RankerFloat.calculate_bm25 RankerFloat.fixture_log (chars "bce") bm25_docs
    1.2 0.75
  = [ (2%Z, 1.0986122886681098%float); (0%Z, 0.4054651081081644%float);
      (1%Z, 0.4054651081081644%float) ].
Proof.
  destruct calculate_bm25_fixture as (_ & _ & _ & Hfloat & _).
  exact (Hfloat RankerFloat.fixture_log eq_refl eq_refl eq_refl).
Defined.

End RankerFloatFacts.

(** ** [searcher.py] on the ranking functions above *)

Module EngineFacts.
Import PyFacts Ranker Searcher SearcherFacts RankerFacts.

Section Engine.
Context `{util : Util} `{iteration : SetIteration}.
Implicit Types (data : ProcessedData) (query : string) (topk : option Z).

Lemma slice_to_nil {A} topk : slice_to ([] : list A) topk = [].
Proof.
  destruct topk as [k|]; simpl; [|done].
  case_bool_decide; [apply take_nil | done].
Qed.

Lemma bm25_search_engine query data topk :
  bm25_search query data topk
  = let* hs := hits data (cleaned data query) in
    Ok (slice_to (Ranker.calculate_bm25 (cleaned data query) hs (12 / 10) (3 / 4)) topk).
Proof.
  rewrite bm25_search_unfold.
  destruct (hits data (cleaned data query)) as [[|h hs]|e]; simpl; [|done..].
  by rewrite RankerFacts.calculate_bm25_nil, slice_to_nil.
Qed.

Lemma bm25_search_ok query data topk out :
  bm25_search query data topk = Ok out ↔
  ∃ hs, hits data (cleaned data query) = Ok hs
        ∧ out = slice_to (Ranker.calculate_bm25 (cleaned data query) hs (12 / 10) (3 / 4))
                         topk.
Proof. rewrite bm25_search_engine, bind_ok. naive_solver. Qed.

Lemma bm25_search_succeeds query data topk :
  succeeds (bm25_search query data topk)
  ↔ doc_ids (inverted_index data) (cleaned data query)
    ⊆ list_to_set (doc_id <$> docs data).
Proof.
  rewrite <-hits_succeeds, bm25_search_engine. unfold succeeds.
  destruct (hits data (cleaned data query)); simpl; naive_solver.
Qed.

Lemma doc_ids_absent (index : gmap string (list Z)) (query : list string) w :
  index !! w = None →
  doc_ids index query = doc_ids index (filter (λ t, t ≠ w) query).
Proof.
  intros Hw. apply set_eq. intros i. rewrite !elem_of_doc_ids.
  setoid_rewrite list_elem_of_filter. split.
  - intros (t & Ht & Hi). exists t. split_and!; [|done..].
    intros ->. unfold postings in Hi. rewrite Hw in Hi.
    by apply elem_of_nil in Hi.
  - naive_solver.
Qed.

Lemma filter_key_absent {A B} `{EqDecision A} (l : list (A * B)) k :
  k ∉ l.*1 → filter (λ x, x.1 = k) l = [].
Proof.
  induction l as [|[k' v] l IH]; csimpl; [done|].
  rewrite not_elem_of_cons, filter_cons. simpl. intros [? ?].
  rewrite decide_False by done. by apply IH.
Qed.

Lemma count_key {A B} `{EqDecision A} (l : list (A * B)) k :
  NoDup l.*1 → k ∈ l.*1 → length (filter (λ x, x.1 = k) l) = 1%nat.
Proof.
  induction l as [|[k' v] l IH]; csimpl.
  - by intros _ ?%elem_of_nil.
  - intros [Hk' Hl]%NoDup_cons Hk. rewrite filter_cons. simpl.
    case_decide as Heq.
    + subst k'. simpl. by rewrite filter_key_absent.
    + apply IH; [done|]. by apply elem_of_cons in Hk as [?|?].
Qed.

(** C2. A token without an index entry has the empty postings sequence;
    dropping it from the query leaves the candidate set as it is; and
    [bm25_search] succeeds exactly when the candidates of the remaining
    tokens are documents of the collection. *)
Theorem bm25_search_absent_token query data topk w :
  inverted_index data !! w = None →
  postings (inverted_index data) w = []
  ∧ doc_ids (inverted_index data) (cleaned data query)
    = doc_ids (inverted_index data) (filter (λ t, t ≠ w) (cleaned data query))
  ∧ (succeeds (bm25_search query data topk)
     ↔ doc_ids (inverted_index data) (filter (λ t, t ≠ w) (cleaned data query))
       ⊆ list_to_set (doc_id <$> docs data)).
Proof.
  intros Hw. split_and!.
  - unfold postings. by rewrite Hw.
  - by apply doc_ids_absent.
  - by rewrite bm25_search_succeeds, <-doc_ids_absent.
Qed.

(** C5. With [topk = None] both searches return the whole ranking, one
    entry per candidate (per model), best score first; with a count
    [topk = k >= 0] they return its first [k] entries, hence at most [k]. *)
Theorem search_topk_prefix query data alpha normalize :
  (∀ full, bm25_search query data None = Ok full →
     descending snd full
     ∧ (∃ hs, hits data (cleaned data query) = Ok hs
              ∧ full.*1 ≡ₚ doc_id <$> hs)
     ∧ ∀ k, 0 ≤ k →
         bm25_search query data (Some k) = Ok (take (Z.to_nat k) full)
         ∧ (length (take (Z.to_nat k) full) ≤ Z.to_nat k)%nat)
  ∧ (∀ full, qlm_search query data None alpha normalize = Ok full →
     descending snd full
     ∧ full.*1 ≡ₚ (models_map data).*1
     ∧ ∀ k, 0 ≤ k →
         qlm_search query data (Some k) alpha normalize
         = Ok (take (Z.to_nat k) full)
         ∧ (length (take (Z.to_nat k) full) ≤ Z.to_nat k)%nat).
Proof.
  split.
  - intros full (hs & Hhs & ->)%bm25_search_ok. unfold slice_to. split_and!.
    + apply calculate_bm25_descending.
    + exists hs. split; [done|]. apply calculate_bm25_ids.
    + intros k Hk. split; [|rewrite length_take; lia].
      apply bm25_search_ok. exists hs. by rewrite slice_to_nonneg.
  - intros full (items & Hitems & ->)%qlm_search_ok. unfold slice_to. split_and!.
    + apply sorted_reverse_descending.
    + by rewrite sorted_reverse_perm, (scored_keys _ _ _ _ _ _ Hitems).
    + intros k Hk. split; [|rewrite length_take; lia].
      apply qlm_search_ok. exists items. by rewrite slice_to_nonneg.
Qed.

(** C10. No id occurs twice in what [bm25_search] or [qlm_search] returns;
    with [topk = None], [qlm_search] returns exactly one pair for the id of
    each loaded model and no pair for any other id, so as many pairs as
    models when their ids are distinct. *)
Theorem search_ids_unique query data topk alpha normalize :
  (∀ out, bm25_search query data topk = Ok out → NoDup out.*1)
  ∧ (∀ out, qlm_search query data topk alpha normalize = Ok out → NoDup out.*1)
  ∧ (∀ out, qlm_search query data None alpha normalize = Ok out →
       (∀ m, m ∈ language_models data →
             length (filter (λ ks, ks.1 = lm_id m) out) = 1%nat)
       ∧ (∀ ks, ks ∈ out → ∃ m, m ∈ language_models data ∧ lm_id m = ks.1)
       ∧ (NoDup (lm_id <$> language_models data) →
          length out = length (language_models data))).
Proof.
  assert (Hqlm : ∀ items,
    Forall2 (scored (collection_model data) (cleaned data query) alpha normalize)
            (models_map data) items →
    (sorted_reverse ltb snd items).*1 ≡ₚ (models_map data).*1).
  { intros items Hitems.
    by rewrite sorted_reverse_perm, (scored_keys _ _ _ _ _ _ Hitems). }
  split_and!.
  - intros out (hs & Hhs & ->)%bm25_search_ok.
    eapply NoDup_prefix; [apply slice_to_prefix|].
    rewrite calculate_bm25_ids, (hits_ids _ _ _ Hhs). apply NoDup_set_iter.
  - intros out (items & Hitems & ->)%qlm_search_ok.
    eapply NoDup_prefix; [apply slice_to_prefix|].
    rewrite (Hqlm _ Hitems). apply dict_comprehension_NoDup.
  - intros out (items & Hitems & ->)%qlm_search_ok. unfold slice_to.
    pose proof (Hqlm _ Hitems) as Hkeys. split_and!.
    + intros m Hm. apply count_key.
      * rewrite Hkeys. apply dict_comprehension_NoDup.
      * rewrite Hkeys. apply (dict_comprehension_keys lm_id).
        by apply list_elem_of_fmap_2.
    + intros ks Hks. apply (list_elem_of_fmap_2 fst) in Hks.
      rewrite Hkeys in Hks. unfold models_map in Hks.
      apply (proj1 (dict_comprehension_keys lm_id _ _)) in Hks.
      apply list_elem_of_fmap in Hks as (m & -> & Hm). by exists m.
    + intros Hnd. rewrite <-(length_fmap fst), Hkeys.
      unfold models_map. rewrite dict_comprehension_distinct by done.
      by rewrite !length_fmap.
Qed.

End Engine.
End EngineFacts.

(** ** Runs on the fixtures *)

Module Runs.
Import PyFacts Ranker Searcher SearcherFacts RankerFacts EngineFacts Fixtures.

Lemma cleaned_bce : cleaned data "bce" = chars "bce".
Proof. by vm_compute. Qed.

Lemma models_map_data :
  models_map data = (λ m, (lm_id m, m)) <$> language_models data.
Proof. by vm_compute. Qed.

Lemma qlm_run topk :
  qlm_search "bce" data topk (3 / 4)%R false = Ok (slice_to qlm_ranking topk).
Proof.
  apply qlm_search_ok.
  exists [ (Some 0%Z, (299 / 36864)%R); (Some 1%Z, (299 / 36864)%R);
           (Some 2%Z, (308 / 36864)%R) ].
  split.
  - rewrite models_map_data, cleaned_bce.
    repeat constructor; simpl; eval_probability; f_equal; lra.
  - f_equal. unfold qlm_ranking. eval_sort.
Qed.

Lemma hits_bce : hits data (cleaned data "bce") = Ok bm25_docs.
Proof. by vm_compute. Qed.

Lemma bm25_run topk :
  bm25_search "bce" data topk = Ok (slice_to bm25_ranking topk).
Proof.
  apply bm25_search_ok. exists bm25_docs. split; [apply hits_bce|].
  by rewrite cleaned_bce, bm25_fixture_ranking.
Qed.

Lemma hits_bz :
  doc_ids (inverted_index data)
          (filter (λ t, t ≠ "<unk>"%string) (cleaned data "bz"))
  ⊆ list_to_set (doc_id <$> docs data).
Proof. apply (bool_decide_unpack _). by vm_compute. Qed.

Lemma unseen_z :
  Ranker.interpolated_word_probability raw_doc_model raw_coll_model (3 / 4) "z"
  = 0%R.
Proof. eval_probability. lra. Qed.

(** C1 on the fixture: the two best of three models, the tie between
    models 0 and 1 decided for model 0. *)
Lemma qlm_search_ranked_witness :
  qlm_search "bce" data (Some 2) (3 / 4)%R false = Ok (take 2 qlm_ranking)
  ∧ descending snd (take 2 qlm_ranking).
Proof.
  split; [exact (qlm_run (Some 2))|].
  destruct (qlm_search_ranked "bce" data (Some 2) (3 / 4)%R false _
              (qlm_run (Some 2)))
    as (items & full & _ & _ & _ & _ & _ & _ & _ & Hout & _).
  exact Hout.
Defined.

(** C3 on the fixture: the query [bce] reaches all three documents. *)
Lemma bm25_search_candidates_witness :
  hits data (cleaned data "bce") = Ok bm25_docs
  ∧ ∀ i, i ∈ doc_id <$> bm25_docs
         ↔ ∃ w, w ∈ cleaned data "bce" ∧ i ∈ postings (inverted_index data) w.
Proof.
  split; [exact hits_bce|].
  exact (proj1 (bm25_search_candidates (score := R) (weight := R)
                  "bce" data None bm25_docs hits_bce)).
Defined.

(** C4 on the fixture: the empty query, and a query of unknown words. *)
Lemma bm25_search_no_candidates_witness :
  bm25_search (score := R) (weight := R) "" data None = Ok []
  ∧ bm25_search (score := R) (weight := R) "xyz" data (Some 5) = Ok [].
Proof.
  split.
  - apply bm25_search_no_candidates. left. reflexivity.
  - apply bm25_search_no_candidates. right. repeat constructor.
Defined.

(** C6 fails on the fixture: [topk = -1] is accepted and drops the last
    entry of the ranking. *)
Lemma qlm_search_negative_topk :
  qlm_search "bce" data (Some (-1)) (3 / 4)%R false
  = Ok [ (Some 2%Z, (308 / 36864)%R); (Some 0%Z, (299 / 36864)%R) ]
  ∧ ¬ ∃ e, qlm_search "bce" data (Some (-1)) (3 / 4)%R false = Raise e.
Proof.
  rewrite (qlm_run (Some (-1))). split; [done|]. by intros [e ?].
Qed.

Lemma qlm_search_unchecked_witness :
  qlm_search "bce" data (Some (- 1)) (3 / 4)%R false
  = Ok (take (length qlm_ranking - Z.to_nat 1) qlm_ranking).
Proof.
  exact (proj1 (qlm_search_unchecked "bce" data (3 / 4)%R false)
           qlm_ranking 1 (qlm_run None) eq_refl).
Defined.

(** C2 on the fixture: [z] is replaced by [<unk>], which has no index
    entry; the search for [bz] succeeds. *)
Lemma bm25_search_absent_token_witness :
  inverted_index data !! "<unk>"%string = None
  ∧ "<unk>"%string ∈ cleaned data "bz"
  ∧ succeeds (bm25_search (score := R) (weight := R) "bz" data None).
Proof.
  split; [reflexivity|]. split; [by vm_compute; right; left|].
  apply (bm25_search_absent_token "bz" data None "<unk>" eq_refl).
  exact hits_bz.
Defined.

(** C5 on the fixture, with [topk = 2]. *)
Lemma search_topk_prefix_witness :
  bm25_search "bce" data (Some 2) = Ok (take 2 bm25_ranking)
  ∧ qlm_search "bce" data (Some 2) (3 / 4)%R false = Ok (take 2 qlm_ranking).
Proof.
  destruct (search_topk_prefix "bce" data (3 / 4)%R false) as [Hbm25 Hqlm].
  split.
  - destruct (Hbm25 _ (bm25_run None)) as (_ & _ & Hk).
    apply (Hk 2). by vm_compute.
  - destruct (Hqlm _ (qlm_run None)) as (_ & _ & Hk).
    apply (Hk 2). by vm_compute.
Defined.

(** C10 on the fixture. *)
Lemma search_ids_unique_witness :
  NoDup bm25_ranking.*1 ∧ NoDup qlm_ranking.*1
  ∧ length qlm_ranking = length (language_models data).
Proof.
  destruct (search_ids_unique "bce" data None (3 / 4)%R false)
    as (Hbm25 & Hqlm & Hall).
  split_and!.
  - exact (Hbm25 _ (bm25_run None)).
  - exact (Hqlm _ (qlm_run None)).
  - destruct (Hall _ (qlm_run None)) as (_ & _ & Hlen).
    apply Hlen. apply (bool_decide_unpack _). by vm_compute.
Defined.

(** C8 fails on the models of [tester.py]: [f] occurs in neither counter,
    yet its interpolated probability is 7/100, and the logarithmic mode
    returns [ln (7/100)].  The additive constant behind this is the one
    [test_calculate_word_probability] (tester.py, lines 101-107) demands:
    there the word [e], absent from the counter, has probability 1/15. *)
Lemma unseen_token_smoothed :
  multiplicity "f"%string (lm_counter doc_model) = 0%nat
  ∧ multiplicity "f"%string (lm_counter coll_model) = 0%nat
  ∧ Ranker.calculate_interpolated_sentence_probability
      doc_model coll_model ["f"%string] (3 / 4) false = Ok (7 / 100)%R
  ∧ Ranker.calculate_interpolated_sentence_probability
      doc_model coll_model ["f"%string] (3 / 4) false ≠ Ok 0%R
  ∧ Ranker.calculate_interpolated_sentence_probability
      doc_model coll_model ["f"%string] (3 / 4) true = Ok (ln (7 / 100) + 0)%R.
Proof.
  assert (Hplain : Ranker.calculate_interpolated_sentence_probability
            doc_model coll_model ["f"%string] (3 / 4) false = Ok (7 / 100)%R).
  { eval_probability. f_equal. lra. }
  split_and!; [by vm_compute..|done| |].
  - rewrite Hplain. intros [= Heq]. lra.
  - assert (Hp : interpolated_word_probability doc_model coll_model (3 / 4) "f"
                 = (7 / 100)%R) by (eval_probability; lra).
    unfold Ranker.calculate_interpolated_sentence_probability. simpl.
    rewrite Hp. unfold log. rewrite decide_True by lra. done.
Qed.

(** C8 as amended, on two models without additive constant. *)
Lemma unseen_token_probability_witness :
  (Ranker.interpolated_word_probability raw_doc_model raw_coll_model (3 / 4) "z"
   = 0%R
   ↔ (3 / 4 * 0 = 0)%R ∧ ((1 - 3 / 4) * 0 = 0)%R)
  ∧ Ranker.calculate_interpolated_sentence_probability
      raw_doc_model raw_coll_model (chars "az") (3 / 4) false = Ok 0%R
  ∧ Ranker.calculate_interpolated_sentence_probability
      raw_doc_model raw_coll_model (chars "az") (3 / 4) true = Raise ValueError.
Proof.
  destruct (unseen_token_probability raw_doc_model raw_coll_model (chars "az")
              (3 / 4)%R "z") as [Hunseen Hzero].
  destruct (Hunseen eq_refl eq_refl) as [_ Hrange].
  destruct Hrange as [_ Hiff]; [lra|done..|].
  split; [exact Hiff|].
  apply Hzero; [by right; left | exact unseen_z].
Defined.

End Runs.

(** * Further properties of the code *)

(** ** Dictionaries built from a sequence of items *)

Module DictLaws.
Import PyFacts.

Section Dict.
Context {K V : Type} `{EqDecision K}.
Implicit Types (d items : list (K * V)).

Lemma NoDup_fst_functional d k v1 v2 :
  NoDup d.*1 → (k, v1) ∈ d → (k, v2) ∈ d → v1 = v2.
Proof.
  induction d as [|[k0 v0] d IH]; csimpl.
  - by intros _ ?%elem_of_nil.
  - intros [Hk0 Hd]%NoDup_cons.
    intros [H1|H1]%elem_of_cons [H2|H2]%elem_of_cons.
    + congruence.
    + injection H1 as -> ->. destruct Hk0.
      by apply (list_elem_of_fmap_2 fst) in H2.
    + injection H2 as -> ->. destruct Hk0.
      by apply (list_elem_of_fmap_2 fst) in H1.
    + by apply IH.
Qed.

Lemma dict_of_items_snoc items k v :
  dict_of_items (items ++ [(k, v)]) = dict_set k v (dict_of_items items).
Proof. unfold dict_of_items. by rewrite foldl_app. Qed.

Lemma dict_of_items_NoDup items : NoDup (dict_of_items items).*1.
Proof.
  induction items as [|[k v] items IH] using rev_ind; [constructor|].
  rewrite dict_of_items_snoc. by apply dict_set_NoDup.
Qed.

Lemma dict_comprehension_as_items (key : V → K) (l : list V) :
  dict_comprehension key l = dict_of_items ((λ x, (key x, x)) <$> l).
Proof.
  unfold dict_comprehension, dict_of_items.
  generalize ([] : list (K * V)).
  induction l as [|x l IH]; intros d; simpl; [done|]. apply IH.
Qed.

(** The keys of the dictionary are the keys of the items, each at the
    position of its first occurrence. *)
Lemma dict_of_items_keys items :
  (dict_of_items items).*1 = reverse (remove_dups (reverse items.*1)).
Proof.
  induction items as [|[k v] items IH] using rev_ind; [done|].
  rewrite dict_of_items_snoc, dict_set_keys, IH, fmap_app, reverse_app.
  change (reverse [(k, v)].*1 ++ reverse items.*1)
    with (k :: reverse items.*1).
  simpl remove_dups.
  assert (Hiff : k ∈ reverse (remove_dups (reverse items.*1))
                 ↔ k ∈ reverse items.*1)
    by by rewrite elem_of_reverse, elem_of_remove_dups.
  destruct (decide_rel elem_of k (reverse items.*1)) as [Hk|Hk].
  - by rewrite decide_True by by apply Hiff.
  - rewrite decide_False, reverse_cons; [done|]. by rewrite Hiff.
Qed.

Lemma elem_of_dict_set k v k' v' d :
  NoDup d.*1 →
  (k', v') ∈ dict_set k v d ↔ (k' = k ∧ v' = v) ∨ (k' ≠ k ∧ (k', v') ∈ d).
Proof.
  induction d as [|[k0 v0] d IH]; csimpl.
  - intros _. rewrite list_elem_of_singleton, elem_of_nil. naive_solver.
  - intros [Hk0 Hd]%NoDup_cons. case_decide as Hk.
    + subst k0. rewrite !elem_of_cons. split.
      * intros [[= -> ->]|Hin]; [by left|]. right. split; [|by right].
        intros ->. apply Hk0. by apply (list_elem_of_fmap_2 fst) in Hin.
      * intros [[-> ->]|[Hne [[= ? ?]|Hin]]]; [by left|done|by right].
    + rewrite !elem_of_cons, IH by done. split.
      * intros [[= -> ->]|[[-> ->]|[? ?]]]; [right|by left|right]; split;
          try done; [by left|by right].
      * intros [[-> ->]|[Hne [[= -> ->]|Hin]]];
          [right; by left|by left|right; by right].
Qed.

(** An item is in the dictionary exactly when it is the last item of the
    sequence with its key. *)
Lemma elem_of_dict_of_items items k v :
  (k, v) ∈ dict_of_items items
  ↔ ∃ l1 l2, items = l1 ++ (k, v) :: l2 ∧ k ∉ l2.*1.
Proof.
  induction items as [|[k0 v0] items IH] using rev_ind.
  - split; [by intros ?%elem_of_nil|].
    intros ([|??] & ? & ? & _); done.
  - rewrite dict_of_items_snoc, elem_of_dict_set by apply dict_of_items_NoDup.
    rewrite IH. split.
    + intros [[-> ->]|[Hne (l1 & l2 & -> & Hl2)]].
      * exists items, []. split; [done|]. apply not_elem_of_nil.
      * exists l1, (l2 ++ [(k0, v0)]). split; [by rewrite <-app_assoc|].
        rewrite fmap_app, not_elem_of_app. csimpl.
        by rewrite list_elem_of_singleton.
    + intros (l1 & l2 & Heq & Hl2). revert Heq Hl2.
      induction l2 as [|kv l2 _] using rev_ind; intros Heq Hl2.
      * apply app_inj_tail in Heq as [-> [= -> ->]]. by left.
      * rewrite app_comm_cons, app_assoc in Heq.
        apply app_inj_tail in Heq as [-> <-].
        rewrite fmap_app, not_elem_of_app in Hl2. csimpl in Hl2.
        rewrite list_elem_of_singleton in Hl2. destruct Hl2 as [Hl2 Hne].
        right. split; [done|]. by exists l1, l2.
Qed.

End Dict.
End DictLaws.

(** ** Further facts about [bm25_search] and [qlm_search] *)

Module SearcherLaws.
Import PyFacts DictLaws Searcher SearcherFacts.

Section Generic.
Context `{util : Util} `{iteration : SetIteration} {score weight : Type}
  `{order : ScoreOrder score} `{ranker : !RankerOps score weight}.
Implicit Types (data : ProcessedData) (query : string) (topk : option Z).

(** *** The document table *)

Lemma docs_fold_lookup v (l : list (TokenizedDocument Z)) i h :
  foldl (λ m doc, <[doc_id doc := convert_doc v doc]> m)
        (∅ : gmap Z (TokenizedDocument string)) l !! i = Some h
  ↔ ∃ l1 d l2, l = l1 ++ d :: l2 ∧ doc_id d = i ∧ h = convert_doc v d
               ∧ Forall (λ d', doc_id d' ≠ i) l2.
Proof.
  induction l as [|d0 l IH] using rev_ind.
  - simpl. rewrite lookup_empty. split; [done|].
    intros ([|??] & ? & ? & ? & _); done.
  - rewrite foldl_app. simpl. rewrite lookup_insert. case_decide as Hd0.
    + split.
      * intros [= <-]. exists l, d0, []. by repeat split.
      * intros (l1 & d & l2 & Heq & Hd & -> & Hl2). f_equal. revert Heq Hl2.
        induction l2 as [|d' l2 _] using rev_ind; intros Heq Hl2.
        -- apply app_inj_tail in Heq as [_ Heq]. by rewrite Heq.
        -- rewrite app_comm_cons, app_assoc in Heq.
           apply app_inj_tail in Heq as [_ <-].
           apply Forall_app in Hl2 as [_ Hl2].
           rewrite Forall_singleton in Hl2. congruence.
    + rewrite IH. split.
      * intros (l1 & d & l2 & -> & Hd & -> & Hl2).
        exists l1, d, (l2 ++ [d0]). split_and!; [by rewrite <-app_assoc|done..|].
        apply Forall_app. split; [done|]. by apply Forall_singleton.
      * intros (l1 & d & l2 & Heq & Hd & -> & Hl2). revert Heq Hl2.
        induction l2 as [|d' l2 _] using rev_ind; intros Heq Hl2.
        -- apply app_inj_tail in Heq as [_ Heq]. by rewrite Heq in Hd0.
        -- rewrite app_comm_cons, app_assoc in Heq.
           apply app_inj_tail in Heq as [-> <-].
           apply Forall_app in Hl2 as [Hl2 _]. by exists l1, d, l2.
Qed.

Lemma docs_map_lookup data i h :
  docs_map data !! i = Some h
  ↔ ∃ l1 d l2, docs data = l1 ++ d :: l2 ∧ doc_id d = i
               ∧ h = convert_doc (vocab data) d
               ∧ Forall (λ d', doc_id d' ≠ i) l2.
Proof. apply docs_fold_lookup. Qed.

Lemma get_docs_raise (m : gmap Z (TokenizedDocument string)) ids e :
  for_each (get_doc m) ids = Raise e → e = KeyError.
Proof.
  intros (i & _ & Hi)%for_each_raise. unfold get_doc in Hi.
  destruct (m !! i); congruence.
Qed.

Lemma get_docs_elem (m : gmap Z (TokenizedDocument string)) ids hs h :
  for_each (get_doc m) ids = Ok hs → h ∈ hs → ∃ i, m !! i = Some h.
Proof.
  rewrite for_each_Forall2. intros Hall Hh.
  apply list_elem_of_lookup in Hh as [n Hn].
  destruct (Forall2_lookup_r _ _ _ _ _ Hall Hn) as (i & _ & Hi).
  exists i. unfold get_doc in Hi. destruct (m !! i); congruence.
Qed.

(** *** What [topk] does *)

Lemma bm25_search_slice query data topk :
  bm25_search query data topk
  = let* full := bm25_search query data None in Ok (slice_to full topk).
Proof.
  rewrite !bm25_search_unfold.
  destruct (hits data (cleaned data query)) as [[|h hs]|e]; simpl; [|..|done].
  - destruct topk as [k|]; simpl; [|done].
    case_bool_decide; [by rewrite take_nil|done].
  - by destruct (calculate_bm25 _ _).
Qed.

Lemma qlm_search_slice query data topk alpha normalize :
  qlm_search query data topk alpha normalize
  = let* full := qlm_search query data None alpha normalize in
    Ok (slice_to full topk).
Proof.
  rewrite !qlm_search_unfold. by destruct (scores _ _ _ _).
Qed.

Lemma slice_to_all {A} (l : list A) k :
  (length l ≤ Z.to_nat k)%nat → 0 ≤ k → slice_to l (Some k) = l.
Proof. intros. rewrite slice_to_nonneg by done. by apply take_ge. Qed.

Lemma slice_to_page {A} (l : list A) j k :
  0 ≤ j ≤ k →
  take (Z.to_nat j) (slice_to l (Some k)) = slice_to l (Some j).
Proof.
  intros. rewrite !slice_to_nonneg, take_take by lia. f_equal. lia.
Qed.

(** *** The loop that fills [scores] *)

Lemma fill_scores_raise_iff cm (q : list string) (alpha : weight) normalize
    items acc e :
  fill_scores cm q alpha normalize items acc = Raise e
  ↔ ∃ l1 km l2, items = l1 ++ km :: l2
      ∧ Forall (λ km', succeeds (calculate_interpolated_sentence_probability
                                   km'.2 cm q alpha normalize)) l1
      ∧ calculate_interpolated_sentence_probability km.2 cm q alpha normalize
        = Raise e.
Proof.
  revert acc. induction items as [|[k m] items IH]; intros acc; simpl.
  - split; [done|]. intros ([|??] & ? & ? & ? & _); done.
  - destruct (calculate_interpolated_sentence_probability m cm q alpha normalize)
      as [s|e'] eqn:Hm; simpl.
    + rewrite IH. split.
      * intros (l1 & km & l2 & -> & Hl1 & Hkm).
        exists ((k, m) :: l1), km, l2. split_and!; [done| |done].
        constructor; [|done]. by exists s.
      * intros ([|km' l1] & km & l2 & Heq & Hl1 & Hkm);
          injection Heq as <- ->; simpl in *.
        -- congruence.
        -- apply Forall_cons in Hl1 as [_ Hl1]. by exists l1, km, l2.
    + split.
      * intros [= ->]. exists [], (k, m), items. by split_and!.
      * intros ([|km' l1] & km & l2 & Heq & Hl1 & Hkm);
          injection Heq as <- ->; simpl in *.
        -- congruence.
        -- apply Forall_cons in Hl1 as [[s Hs] _]. simpl in Hs. congruence.
Qed.

Lemma models_map_lookup data i m :
  (i, m) ∈ models_map data
  ↔ ∃ l1 l2, language_models data = l1 ++ m :: l2 ∧ lm_id m = i
             ∧ Forall (λ m', lm_id m' ≠ i) l2.
Proof.
  unfold models_map.
  rewrite dict_comprehension_as_items, elem_of_dict_of_items. split.
  - intros (l1 & l2 & Heq & Hl2).
    apply fmap_app_inv in Heq as (l1' & l2' & -> & Heq & ->).
    symmetry in Heq.
    apply fmap_cons_inv in Heq as (m' & l2'' & [= -> ->] & -> & ->).
    exists l1', l2''. split_and!; [done..|].
    apply Forall_forall. intros m0 Hm0 Heq. apply Hl2.
    rewrite <-list_fmap_compose. apply list_elem_of_fmap.
    by exists m0.
  - intros (l1 & l2 & -> & <- & Hl2).
    exists ((λ x, (lm_id x, x)) <$> l1), ((λ x, (lm_id x, x)) <$> l2).
    split; [by rewrite fmap_app|].
    rewrite <-list_fmap_compose. intros (m' & Heq & Hm')%list_elem_of_fmap.
    rewrite Forall_forall in Hl2. by eapply Hl2.
Qed.

Lemma scored_elem cm (q : list string) (alpha : weight) normalize items ss km :
  Forall2 (scored cm q alpha normalize) items ss → km ∈ items →
  ∃ ks, ks ∈ ss ∧ scored cm q alpha normalize km ks.
Proof.
  intros Hall (n & Hn)%list_elem_of_lookup.
  destruct (Forall2_lookup_l _ _ _ _ _ Hall Hn) as (ks & Hks & Hscored).
  exists ks. split; [|done]. by eapply list_elem_of_lookup_2.
Qed.

(** X1. When the index posts, for some query token, an id that no stored
    document has, [bm25_search] raises [KeyError], whatever [topk] and
    whatever the ranker. *)
Theorem bm25_search_key_error query data topk :
  ¬ doc_ids (inverted_index data) (cleaned data query)
    ⊆ list_to_set (doc_id <$> docs data) →
  bm25_search query data topk = Raise KeyError.
Proof.
  intros Hsub. rewrite bm25_search_unfold.
  destruct (hits data (cleaned data query)) as [hs|e] eqn:Hhs; simpl.
  - exfalso. apply Hsub, hits_succeeds. by exists hs.
  - unfold hits in Hhs. by rewrite (get_docs_raise _ _ _ Hhs).
Qed.

(** X2. [calculate_bm25] is never called on an empty candidate list: two
    rankers that agree on every non-empty list give the same search. *)
Theorem bm25_search_guard (ranker' : RankerOps score weight) query data topk :
  (∀ q hs, hs ≠ [] →
     @calculate_bm25 score weight ranker q hs
     = @calculate_bm25 score weight ranker' q hs) →
  bm25_search (ranker := ranker) query data topk
  = bm25_search (ranker := ranker') query data topk.
Proof.
  intros Hagree.
  rewrite (bm25_search_unfold (ranker := ranker)),
    (bm25_search_unfold (ranker := ranker')).
  destruct (hits data (cleaned data query)) as [[|h hs]|e]; simpl; [done| |done].
  by rewrite Hagree.
Qed.

(** X3. Every hit is a stored document after conversion, and when several
    stored documents share an id it is the last of them. *)
Theorem hits_last_stored data (q : list string) hs :
  hits data q = Ok hs →
  Forall (λ h, ∃ l1 d l2,
            docs data = l1 ++ d :: l2 ∧ h = convert_doc (vocab data) d
            ∧ Forall (λ d', doc_id d' ≠ doc_id d) l2) hs.
Proof.
  intros Hhs. apply Forall_forall. intros h Hh.
  destruct (get_docs_elem _ _ _ _ Hhs Hh) as [i Hi].
  apply docs_map_lookup in Hi as (l1 & d & l2 & Heq & <- & -> & Hl2).
  by exists l1, d, l2.
Qed.

Lemma for_each_rearranged {A B} (f : A → result B) l1 l2 ys1 :
  l1 ≡ₚ l2 → for_each f l1 = Ok ys1 →
  ∃ ys2, for_each f l2 = Ok ys2 ∧ ys1 ≡ₚ ys2.
Proof.
  intros Hperm. revert ys1.
  induction Hperm as [|x l1 l2 _ IH|x y l|l1 l2 l3 _ IH1 _ IH2];
    intros ys1; simpl.
  - intros [= <-]. by exists [].
  - intros (b & Hb & (ys & Hys & [= <-])%bind_ok)%bind_ok.
    destruct (IH _ Hys) as (ys2 & Hys2 & Hp).
    exists (b :: ys2). rewrite Hb, Hys2. simpl. split; [done|].
    by constructor.
  - intros (b & Hb & (ys' & Hys' & [= <-])%bind_ok)%bind_ok.
    apply bind_ok in Hys' as (a & Ha & (ys & Hys & [= <-])%bind_ok).
    exists (a :: b :: ys). rewrite Ha, Hb, Hys. simpl. split; [done|].
    apply Permutation_swap.
  - intros H1. destruct (IH1 _ H1) as (ys2 & H2 & Hp12).
    destruct (IH2 _ H2) as (ys3 & H3 & Hp23).
    exists ys3. split; [done|]. by etrans.
Qed.

(** X4. The hits depend on the query only through the set of its tokens:
    order and repetition of tokens do not matter.  For two queries with the
    same tokens, and whichever order each of the two sets of candidate ids
    is enumerated in, the hits of the one are the hits of the other up to
    their order, and the lookup fails for the one when it fails for the
    other. *)
Theorem hits_query_set (first second : SetIteration) data (q1 q2 : list string) :
  (∀ w, w ∈ q1 ↔ w ∈ q2) →
  (∀ hs1, hits (iteration := first) data q1 = Ok hs1 →
     ∃ hs2, hits (iteration := second) data q2 = Ok hs2 ∧ hs1 ≡ₚ hs2)
  ∧ (∀ e, hits (iteration := first) data q1 = Raise e →
          hits (iteration := second) data q2 = Raise e).
Proof.
  intros Hq.
  assert (Hids : doc_ids (inverted_index data) q1
                 = doc_ids (inverted_index data) q2).
  { apply set_eq. intros i. rewrite !elem_of_doc_ids. naive_solver. }
  assert (Hperm : @set_iter first (doc_ids (inverted_index data) q1)
                  ≡ₚ @set_iter second (doc_ids (inverted_index data) q2)).
  { by rewrite Hids, !set_iter_perm. }
  split.
  - intros hs1. unfold hits. by apply for_each_rearranged.
  - intros e He. pose proof (get_docs_raise _ _ _ He) as ->.
    destruct (hits (iteration := second) data q2) as [hs2|e'] eqn:H2.
    + symmetry in Hperm.
      destruct (for_each_rearranged _ _ _ _ Hperm H2) as (hs1 & H1 & _).
      unfold hits in He. congruence.
    + by rewrite (get_docs_raise _ _ _ H2).
Qed.

(** X5. [topk] only cuts the ranking: for every [topk], negative ones
    included, either search is the search with [topk = None] followed by the
    slice, so [topk] never decides whether the call fails. *)
Theorem search_topk_only_cuts query data topk alpha normalize :
  bm25_search query data topk
  = (let* full := bm25_search query data None in Ok (slice_to full topk))
  ∧ qlm_search query data topk alpha normalize
    = (let* full := qlm_search query data None alpha normalize in
       Ok (slice_to full topk)).
Proof. split; [apply bm25_search_slice | apply qlm_search_slice]. Qed.

(** X6. Pages nest: for [0 <= j <= k] the search with [topk = j] is the
    first [j] entries of the search with [topk = k]; and a [topk] not below
    the length of the full ranking returns all of it. *)
Theorem search_pages query data alpha normalize j k :
  0 ≤ j ≤ k →
  bm25_search query data (Some j)
  = (let* page := bm25_search query data (Some k) in
     Ok (take (Z.to_nat j) page))
  ∧ qlm_search query data (Some j) alpha normalize
    = (let* page := qlm_search query data (Some k) alpha normalize in
       Ok (take (Z.to_nat j) page))
  ∧ (∀ full, bm25_search query data None = Ok full →
       (length full ≤ Z.to_nat k)%nat →
       bm25_search query data (Some k) = Ok full)
  ∧ (∀ full, qlm_search query data None alpha normalize = Ok full →
       (length full ≤ Z.to_nat k)%nat →
       qlm_search query data (Some k) alpha normalize = Ok full).
Proof.
  intros Hjk. split_and!.
  - rewrite (bm25_search_slice _ _ (Some j)), (bm25_search_slice _ _ (Some k)).
    destruct (bm25_search query data None); unfold bind; [|done].
    by rewrite slice_to_page.
  - rewrite (qlm_search_slice _ _ (Some j)), (qlm_search_slice _ _ (Some k)).
    destruct (qlm_search query data None alpha normalize); unfold bind; [|done].
    by rewrite slice_to_page.
  - intros full Hfull Hlen. rewrite bm25_search_slice, Hfull. unfold bind.
    rewrite slice_to_all; [done..|lia].
  - intros full Hfull Hlen. rewrite qlm_search_slice, Hfull. unfold bind.
    rewrite slice_to_all; [done..|lia].
Qed.

(** X7. [qlm_search] fails exactly when the scorer fails for some model of
    [models_map], and the exception is that of the first such model in
    iteration order. *)
Theorem qlm_search_first_failure query data topk alpha normalize e :
  qlm_search query data topk alpha normalize = Raise e
  ↔ ∃ l1 km l2, models_map data = l1 ++ km :: l2
      ∧ Forall (λ km', succeeds (calculate_interpolated_sentence_probability
                  km'.2 (collection_model data) (cleaned data query)
                  alpha normalize)) l1
      ∧ calculate_interpolated_sentence_probability
          km.2 (collection_model data) (cleaned data query) alpha normalize
        = Raise e.
Proof.
  rewrite qlm_search_unfold. unfold scores.
  rewrite <-(fill_scores_raise_iff _ _ _ _ (models_map data) [] e).
  by destruct (fill_scores _ _ _ _ _ _).
Qed.

(** X8. [models_map] holds one entry per model id, at the position of the
    id's first occurrence in [data['language_models']] and with the last
    model that carries the id. *)
Theorem models_map_shape data :
  (models_map data).*1
  = reverse (remove_dups (reverse (lm_id <$> language_models data)))
  ∧ ∀ i m, (i, m) ∈ models_map data
           ↔ ∃ l1 l2, language_models data = l1 ++ m :: l2 ∧ lm_id m = i
                      ∧ Forall (λ m', lm_id m' ≠ i) l2.
Proof.
  split; [|apply models_map_lookup].
  unfold models_map.
  by rewrite dict_comprehension_as_items, dict_of_items_keys,
    <-list_fmap_compose.
Qed.

(** X9. When several loaded models share an id, the score that
    [qlm_search] reports for the id is the score of the last of them, and
    it is the only entry for the id. *)
Theorem qlm_search_last_model query data alpha normalize out l1 m l2 :
  qlm_search query data None alpha normalize = Ok out →
  language_models data = l1 ++ m :: l2 →
  Forall (λ m', lm_id m' ≠ lm_id m) l2 →
  ∃ s, calculate_interpolated_sentence_probability
         m (collection_model data) (cleaned data query) alpha normalize = Ok s
       ∧ (lm_id m, s) ∈ out
       ∧ ∀ s', (lm_id m, s') ∈ out → s' = s.
Proof.
  intros (items & Hitems & ->)%qlm_search_ok Hl Hl2. unfold slice_to.
  assert (Hm : (lm_id m, m) ∈ models_map data).
  { apply models_map_lookup. by exists l1, l2. }
  destruct (scored_elem _ _ _ _ _ _ _ Hitems Hm) as ([i s] & Hks & Hi & Hs).
  simpl in *. subst i. exists s. split_and!; [done| |].
  - by rewrite sorted_reverse_perm.
  - intros s' Hs'. rewrite sorted_reverse_perm in Hs'.
    assert (Hnd : NoDup items.*1).
    { rewrite (scored_keys _ _ _ _ _ _ Hitems).
      apply dict_comprehension_NoDup. }
    by eapply NoDup_fst_functional.
Qed.

(** X10. The first entry that [qlm_search] returns is a best one: no model
    of [models_map] scores above it. *)
Theorem qlm_search_best_first query data topk alpha normalize best rest :
  qlm_search query data topk alpha normalize = Ok (best :: rest) →
  ∀ km s, km ∈ models_map data →
    calculate_interpolated_sentence_probability
      km.2 (collection_model data) (cleaned data query) alpha normalize = Ok s →
    ltb best.2 s = false.
Proof.
  intros (items & Hitems & Hout)%qlm_search_ok km s Hkm Hs.
  destruct (scored_elem _ _ _ _ _ _ _ Hitems Hkm) as (ks & Hks & _ & Hs').
  assert (s = ks.2) as -> by congruence.
  destruct (slice_to_prefix (sorted_reverse ltb snd items) topk) as [tl Hfull].
  rewrite <-Hout in Hfull.
  pose proof (sorted_reverse_descending snd items) as Hdesc.
  rewrite <-(sorted_reverse_perm snd) in Hks.
  rewrite Hfull in Hdesc, Hks. simpl in *.
  apply StronglySorted_inv in Hdesc as [_ Hbest].
  apply elem_of_cons in Hks as [->|Hks]; [apply ltb_irrefl|].
  rewrite Forall_forall in Hbest. by apply Hbest.
Qed.

End Generic.
End SearcherLaws.

(** ** The order [<] of binary64 numbers *)

Module FloatOrder.
Import SpecFloat.

Ltac compare_cases :=
  repeat match goal with
         | |- context [Z.compare ?a ?b] =>
             destruct (Z.compare_spec a b); subst
         | |- context [Pos.compare_cont Eq ?a ?b] =>
             change (Pos.compare_cont Eq a b) with (Pos.compare a b);
             destruct (Pos.compare_spec a b); subst
         end; simpl; try done; try lia.

Lemma SFltb_irrefl x : SFltb x x = false.
Proof.
  unfold SFltb. destruct x as [[]|[]| |[] m e]; simpl; try done; compare_cases.
Qed.

Lemma SFltb_trans x y z :
  SFltb x y = true → SFltb y z = true → SFltb x z = true.
Proof.
  unfold SFltb.
  destruct x as [[]|[]| |[] m1 e1], y as [[]|[]| |[] m2 e2],
    z as [[]|[]| |[] m3 e3]; simpl; try done; compare_cases.
Qed.

Lemma SFltb_negtrans x y z :
  y ≠ S754_nan → SFltb x z = true → SFltb x y = true ∨ SFltb y z = true.
Proof.
  unfold SFltb.
  destruct x as [[]|[]| |[] m1 e1], y as [[]|[]| |[] m2 e2],
    z as [[]|[]| |[] m3 e3]; simpl; try done; try (by left); try (by right).
  all: intros _; compare_cases; try (by left); try (by right).
Qed.

Lemma not_nan (x : PrimFloat.float) :
  PrimFloat.is_nan x = false → FloatOps.Prim2SF x ≠ S754_nan.
Proof.
  intros Hx. unfold FloatOps.Prim2SF. rewrite Hx.
  destruct (PrimFloat.is_zero x); [done|].
  destruct (PrimFloat.is_infinity x); [done|].
  destruct (FloatOps.Z.frexp x) as [r e].
  destruct (shr_fexp _ _ _ _ _) as [shr e'].
  by destruct (shr_m shr).
Qed.

(** On the floats other than NaN, [<] is a strict weak order. *)
Lemma float_ordered :
  OrderedOn PrimFloat.ltb (λ x, PrimFloat.is_nan x = false).
Proof.
  split.
  - intros x _. rewrite FloatAxioms.ltb_spec. apply SFltb_irrefl.
  - intros x y z _ _ _. rewrite !FloatAxioms.ltb_spec. apply SFltb_trans.
  - intros x y z _ Hy _. rewrite !FloatAxioms.ltb_spec.
    by apply SFltb_negtrans, not_nan.
Qed.

End FloatOrder.

(** ** [ranknet_lstm_search] *)

Module NeuralLaws.
Import PyFacts DictLaws Searcher SearcherFacts SearcherLaws.

Section Dict.
Context {K V : Type} `{EqDecision K}.

Lemma dict_of_items_distinct (items : list (K * V)) :
  NoDup items.*1 → dict_of_items items = items.
Proof.
  induction items as [|[k v] items IH] using rev_ind; [done|].
  rewrite fmap_app, NoDup_app. intros (Hnd & Hfresh & _).
  rewrite dict_of_items_snoc, IH by done.
  apply dict_set_fresh. intros Hk. eapply Hfresh; [done|]. by left.
Qed.
End Dict.

(** *** The stable descending sort under a comparison that orders only
    some of the keys *)
Section SortedOn.
Context {A K : Type} (lt : K → K → bool) (P : K → Prop) (key : A → K).
Hypothesis ordered : OrderedOn lt P.

Lemma insert_desc_rearranges x l : insert_desc lt key x l ≡ₚ x :: l.
Proof.
  induction l as [|y l IH]; simpl; [done|].
  destruct (lt (key x) (key y)); [|done].
  by rewrite IH, Permutation_swap.
Qed.

Lemma sorted_reverse_rearranges l : sorted_reverse lt key l ≡ₚ l.
Proof.
  induction l as [|x l IH]; simpl; [done|].
  by rewrite insert_desc_rearranges, IH.
Qed.

Lemma insert_desc_sorted_on x l :
  P (key x) → Forall (λ a, P (key a)) l →
  StronglySorted (λ a b, lt (key a) (key b) = false) l →
  StronglySorted (λ a b, lt (key a) (key b) = false) (insert_desc lt key x l).
Proof.
  intros Hx HP. induction 1 as [|y l Hl IH Hy]; simpl.
  - repeat constructor.
  - apply Forall_cons in HP as [HPy HPl].
    destruct (lt (key x) (key y)) eqn:Hxy.
    + constructor; [by apply IH|].
      apply Forall_forall. intros z Hz.
      rewrite insert_desc_rearranges in Hz.
      apply elem_of_cons in Hz as [->|Hz].
      * destruct (lt (key y) (key x)) eqn:Hyx; [|done].
        by rewrite <-(lt_irrefl_on _ _ ordered (key x) Hx),
          (lt_trans_on _ _ ordered (key x) (key y) (key x)).
      * rewrite Forall_forall in Hy. by apply Hy.
    + constructor; [by constructor|].
      constructor; [done|].
      rewrite Forall_forall in Hy, HPl. apply Forall_forall. intros z Hz.
      destruct (lt (key x) (key z)) eqn:Hxz; [|done].
      destruct (lt_negtrans_on _ _ ordered (key x) (key y) (key z)
                  Hx HPy (HPl z Hz) Hxz) as [Hlt|Hlt]; [congruence|].
      by rewrite (Hy z Hz) in Hlt.
Qed.

Lemma sorted_reverse_sorted_on l :
  Forall (λ a, P (key a)) l →
  StronglySorted (λ a b, lt (key a) (key b) = false) (sorted_reverse lt key l).
Proof.
  induction 1 as [|x l Hx Hl IH]; simpl; [constructor|].
  apply insert_desc_sorted_on; [done| |done].
  apply Forall_forall. intros a Ha. rewrite sorted_reverse_rearranges in Ha.
  rewrite Forall_forall in Hl. by apply Hl.
Qed.

Lemma insert_desc_keeps a b x l :
  before a b l → before a b (insert_desc lt key x l).
Proof.
  induction l as [|y l IH]; simpl.
  - by apply before_cons.
  - destruct (lt (key x) (key y)); [|by apply before_cons].
    intros Hab. apply (before_cons_inv key) in Hab as [[-> Hb]|Hab].
    + apply before_head. rewrite insert_desc_rearranges. by right.
    + by apply before_cons, IH.
Qed.

Lemma insert_desc_leads a b l :
  b ∈ l → lt (key a) (key b) = false → before a b (insert_desc lt key a l).
Proof.
  intros Hb Hab. induction l as [|y l IH]; simpl.
  - by apply elem_of_nil in Hb.
  - destruct (lt (key a) (key y)) eqn:Hay; [|by apply before_head].
    apply elem_of_cons in Hb as [->|Hb]; [congruence|].
    by apply before_cons, IH.
Qed.

Lemma sorted_reverse_keeps a b l :
  before a b l → lt (key a) (key b) = false →
  before a b (sorted_reverse lt key l).
Proof.
  intros Hl Hab. induction l as [|x l IH]; simpl.
  - destruct Hl as ([|??] & ? & ? & ?); done.
  - apply (before_cons_inv key) in Hl as [[-> Hb]|Hl].
    + apply insert_desc_leads; [|done]. by rewrite sorted_reverse_rearranges.
    + by apply insert_desc_keeps, IH.
Qed.

End SortedOn.

Section Neural.
Context `{util : Util} `{sorting : FloatSort}
  `{neural : !NeuralOps PrimFloat.float}.
Implicit Types (data : ProcessedData) (query model_path : string)
  (topk : option Z) (output : list PrimFloat.float).

Lemma zipped_ids (ds : list (TokenizedDocument Z)) output :
  (zip_with (λ doc s, (doc_id doc, s)) ds output).*1
  = doc_id <$> take (length output) ds.
Proof.
  revert output. induction ds as [|d ds IH]; intros [|s output]; csimpl;
    [done..|]. by rewrite IH.
Qed.

Lemma neural_scores_from_output (ds : list (TokenizedDocument Z)) output :
  Forall (λ s, PrimFloat.is_nan s = false) output →
  Forall (λ p, PrimFloat.is_nan p.2 = false) (neural_scores ds output).
Proof.
  intros Hout. apply Forall_forall. intros [i s] His.
  apply elem_of_dict_of_items in His as (l1 & l2 & Hzip & _).
  assert (Hn : zip_with (λ doc s, (doc_id doc, s)) ds output
               !! length l1 = Some (i, s)).
  { rewrite Hzip. by apply list_lookup_middle. }
  apply lookup_zip_with_Some in Hn as (d & s' & [= -> ->] & _ & Hs).
  rewrite Forall_forall in Hout. simpl. apply Hout.
  by eapply list_elem_of_lookup_2.
Qed.

Lemma ranknet_lstm_search_unfold query data model_path topk mq md :
  ranknet_lstm_search query data model_path topk mq md
  = let* output := ranknet_output model_path (vocab data) query (docs data)
                                  mq md in
    Ok (slice_to (sorted_floats snd (neural_scores (docs data) output)) topk).
Proof. done. Qed.

Lemma ranknet_lstm_search_ok query data model_path topk mq md out :
  ranknet_lstm_search query data model_path topk mq md = Ok out
  ↔ ∃ output,
      ranknet_output model_path (vocab data) query (docs data) mq md = Ok output
      ∧ out = slice_to (sorted_floats snd (neural_scores (docs data) output))
                       topk.
Proof. rewrite ranknet_lstm_search_unfold, bind_ok. naive_solver. Qed.

Lemma ranknet_lstm_search_slice query data model_path topk mq md :
  ranknet_lstm_search query data model_path topk mq md
  = let* full := ranknet_lstm_search query data model_path None mq md in
    Ok (slice_to full topk).
Proof.
  rewrite !ranknet_lstm_search_unfold.
  by destruct (ranknet_output _ _ _ _ _ _).
Qed.

(** X11. The list [ranknet_lstm_search] gives back names no document
    twice.  Each of its pairs is the id of a stored document with the score
    the model put at that document's position; documents beyond the model's
    output are not ranked, and of several documents with one id the last
    one with a score counts.  When no score in the model's output is NaN,
    the list is in non-increasing score order. *)
Theorem ranknet_lstm_search_ranked query data model_path topk mq md out :
  ranknet_lstm_search query data model_path topk mq md = Ok out →
  ∃ output,
    ranknet_output model_path (vocab data) query (docs data) mq md = Ok output
    ∧ (Forall (λ s, PrimFloat.is_nan s = false) output →
       StronglySorted (λ a b, PrimFloat.ltb a.2 b.2 = false) out)
    ∧ NoDup out.*1
    ∧ ∀ i s, (i, s) ∈ out →
        ∃ n d, docs data !! n = Some d ∧ output !! n = Some s ∧ doc_id d = i
               ∧ ∀ n' d', (n < n' < length output)%nat →
                          docs data !! n' = Some d' → doc_id d' ≠ i.
Proof.
  intros (output & Hout & ->)%ranknet_lstm_search_ok.
  destruct (slice_to_prefix (sorted_floats snd
    (neural_scores (docs data) output)) topk) as [tl Htl].
  exists output. split_and!; [done|..].
  - intros Hnan.
    assert (Hkeys : Forall (λ p, PrimFloat.is_nan p.2 = false)
                      (neural_scores (docs data) output))
      by by apply neural_scores_from_output.
    pose proof (sorted_reverse_sorted_on _ _ snd FloatOrder.float_ordered
                  _ Hkeys) as Hsorted.
    rewrite <-sorted_floats_ordered, Htl in Hsorted by done.
    by apply StronglySorted_app_1_l in Hsorted.
  - eapply NoDup_prefix; [apply slice_to_prefix|].
    rewrite sorted_floats_perm. apply dict_of_items_NoDup.
  - intros i s His.
    assert (Hin : (i, s) ∈ neural_scores (docs data) output).
    { rewrite <-(sorted_floats_perm snd), Htl, elem_of_app. by left. }
    apply elem_of_dict_of_items in Hin as (l1 & l2 & Hzip & Hl2).
    assert (Hn : zip_with (λ doc s, (doc_id doc, s)) (docs data) output
                 !! length l1 = Some (i, s)).
    { rewrite Hzip. by apply list_lookup_middle. }
    apply lookup_zip_with_Some in Hn as (d & s' & [= -> ->] & Hd & Hs).
    exists (length l1), d. split_and!; [done..|].
    intros n' d' [Hlo Hhi] Hd' Heq. apply Hl2.
    destruct (lookup_lt_is_Some_2 output n' Hhi) as [s'' Hs''].
    assert (Hn' : zip_with (λ doc s, (doc_id doc, s)) (docs data) output
                  !! n' = Some (doc_id d', s'')).
    { apply lookup_zip_with_Some. by exists d', s''. }
    rewrite Hzip, lookup_app_r, lookup_cons_ne_0 in Hn' by lia.
    apply (list_elem_of_lookup_2 _ _ _) in Hn'.
    apply (list_elem_of_fmap_2 fst) in Hn'. by rewrite <-Heq.
Qed.

(** X12. When the stored documents have distinct ids, the search with
    [topk = None] returns exactly the pairs of each document's id with its
    score, as many as there are scored documents.  When moreover no score
    in the model's output is NaN, a document that is stored before another
    and is not scored below it comes before it in the result; so two
    documents with equal scores stay in the order of the collection. *)
Theorem ranknet_lstm_search_distinct query data model_path mq md output :
  ranknet_output model_path (vocab data) query (docs data) mq md = Ok output →
  NoDup (doc_id <$> docs data) →
  ∃ out,
    ranknet_lstm_search query data model_path None mq md = Ok out
    ∧ out ≡ₚ zip_with (λ doc s, (doc_id doc, s)) (docs data) output
    ∧ length out = (length (docs data) `min` length output)%nat
    ∧ (Forall (λ s, PrimFloat.is_nan s = false) output →
       ∀ a b, before a b (zip_with (λ doc s, (doc_id doc, s)) (docs data) output)
              → PrimFloat.ltb a.2 b.2 = false → before a b out).
Proof.
  intros Hout Hnd.
  assert (Hscores : neural_scores (docs data) output
                    = zip_with (λ doc s, (doc_id doc, s)) (docs data) output).
  { apply dict_of_items_distinct. rewrite zipped_ids.
    rewrite <-(take_drop (length output) (docs data)), fmap_app in Hnd.
    by apply NoDup_app in Hnd as [? _]. }
  eexists. split_and!.
  - apply ranknet_lstm_search_ok. by exists output.
  - unfold slice_to. by rewrite sorted_floats_perm, Hscores.
  - unfold slice_to. by rewrite sorted_floats_perm, Hscores, length_zip_with.
  - intros Hnan a b Hab Hlt. unfold slice_to.
    rewrite sorted_floats_ordered
      by by apply neural_scores_from_output.
    rewrite Hscores. by apply sorted_reverse_keeps.
Qed.

(** X13. In [ranknet_lstm_search], [topk] only cuts the ranking: for every
    [topk] the call is the call with [topk = None] followed by the slice.
    Pages nest: for [0 <= j <= k] the result for [topk = j] is the first
    [j] entries of the result for [topk = k], and a [topk] not below the
    length of the full ranking returns all of it.  A negative [topk] is not
    refused: it drops that many entries from the end of the ranking. *)
Theorem ranknet_lstm_search_pages query data model_path mq md :
  (∀ topk,
     ranknet_lstm_search query data model_path topk mq md
     = (let* full := ranknet_lstm_search query data model_path None mq md in
        Ok (slice_to full topk)))
  ∧ (∀ j k, 0 ≤ j ≤ k →
       ranknet_lstm_search query data model_path (Some j) mq md
       = (let* page := ranknet_lstm_search query data model_path (Some k)
                         mq md in
          Ok (take (Z.to_nat j) page)))
  ∧ (∀ k full,
       ranknet_lstm_search query data model_path None mq md = Ok full →
       0 ≤ k → (length full ≤ Z.to_nat k)%nat →
       ranknet_lstm_search query data model_path (Some k) mq md = Ok full)
  ∧ (∀ n full,
       ranknet_lstm_search query data model_path None mq md = Ok full →
       n < 0 →
       ranknet_lstm_search query data model_path (Some n) mq md
       = Ok (take (length full - Z.to_nat (- n)) full)).
Proof.
  split_and!.
  - intros topk. apply ranknet_lstm_search_slice.
  - intros j k Hjk.
    rewrite (ranknet_lstm_search_slice _ _ _ (Some j)),
      (ranknet_lstm_search_slice _ _ _ (Some k)).
    destruct (ranknet_lstm_search query data model_path None mq md);
      unfold bind; [|done].
    by rewrite slice_to_page.
  - intros k full Hfull Hk Hlen. rewrite ranknet_lstm_search_slice, Hfull.
    unfold bind. by rewrite slice_to_all.
  - intros n full Hfull Hn. rewrite ranknet_lstm_search_slice, Hfull.
    unfold bind. by rewrite slice_to_neg.
Qed.

End Neural.
End NeuralLaws.

(** ** Further runs on the fixtures *)

Module MoreRuns.
Import PyFacts Ranker Searcher SearcherFacts RankerFacts EngineFacts Fixtures.
Import SearcherLaws NeuralLaws Runs.

Lemma stale_candidates :
  ¬ doc_ids (inverted_index stale_data) (cleaned stale_data "e")
    ⊆ list_to_set (doc_id <$> docs stale_data).
Proof. apply (bool_decide_unpack _). by vm_compute. Qed.

Lemma hits_shadowed :
  hits shadowed_data (chars "a")
  = Ok [ {| doc_id := 0; doc_title := chars "c"; doc_content := chars "de" |} ].
Proof. by vm_compute. Qed.

Lemma hits_ascending :
  hits (iteration := ascending_iteration) data (chars "bce") = Ok bm25_docs.
Proof. by vm_compute. Qed.

(** Enumerated the other way round, the same candidates come out in the
    opposite order. *)
Lemma hits_descending :
  hits (iteration := descending_iteration) data (chars "ecbb")
  = Ok (reverse bm25_docs).
Proof. by vm_compute. Qed.

Lemma same_tokens w : w ∈ chars "bce" ↔ w ∈ chars "ecbb".
Proof. simpl. set_solver. Qed.

Lemma qlm_shadowed_run :
  qlm_search "bce" shadowed_data None (3 / 4)%R false
  = Ok [ (Some 0%Z, (308 / 36864)%R) ].
Proof.
  apply qlm_search_ok. exists [ (Some 0%Z, (308 / 36864)%R) ]. split; [|done].
  replace (models_map shadowed_data)
    with [ (Some 0%Z, {| lm_id := Some 0; lm_counter := Counter (chars "cde");
                         lm_total := 8; lm_smoothing := 1 |}) ]
    by by vm_compute.
  replace (cleaned shadowed_data "bce") with (chars "bce") by by vm_compute.
  repeat constructor; simpl; eval_probability; f_equal; lra.
Qed.

Lemma raw_model_fails :
  Ranker.calculate_interpolated_sentence_probability
    raw_doc_model raw_coll_model (cleaned raw_data "z") (3 / 4) true
  = Raise ValueError.
Proof.
  replace (cleaned raw_data "z") with ["<unk>"%string] by by vm_compute.
  assert (Hp : interpolated_word_probability raw_doc_model raw_coll_model
                 (3 / 4) "<unk>" = 0%R) by (eval_probability; lra).
  unfold Ranker.calculate_interpolated_sentence_probability. simpl.
  rewrite Hp, log_nonpositive; [done|lra].
Qed.

Lemma first_model_listed :
  (Some 0, {| lm_id := Some 0; lm_counter := Counter (chars "abc");
              lm_total := 8; lm_smoothing := 1 |}) ∈ models_map data.
Proof. rewrite models_map_data. by left. Qed.

Lemma first_model_score :
  Ranker.calculate_interpolated_sentence_probability
    {| lm_id := Some 0; lm_counter := Counter (chars "abc");
       lm_total := 8; lm_smoothing := 1 |}
    (collection_model data) (cleaned data "bce") (3 / 4) false
  = Ok (299 / 36864)%R.
Proof. rewrite cleaned_bce. eval_probability; f_equal; lra. Qed.

(** X1 on [stale_data]: the index names document 7 under [e]. *)
Lemma bm25_search_key_error_witness :
  bm25_search (score := R) (weight := R) "e" stale_data (Some 3)
  = Raise KeyError.
Proof. exact (bm25_search_key_error "e" stale_data (Some 3) stale_candidates). Defined.

(** X2 on [data]: a ranker that rejects the empty list is never shown it. *)
Lemma bm25_search_guard_witness :
  bm25_search (ranker := ranker_ops) "xyz" data None
  = bm25_search (ranker := strict_ranker_ops) "xyz" data None.
Proof.
  apply (bm25_search_guard (ranker := ranker_ops) strict_ranker_ops).
  by intros q [|h hs].
Defined.

(** X3 on [shadowed_data]: of the two documents with id 0 the second is
    the hit. *)
Lemma hits_last_stored_witness :
  Forall (λ h, ∃ l1 d l2,
            docs shadowed_data = l1 ++ d :: l2
            ∧ h = convert_doc (vocab shadowed_data) d
            ∧ Forall (λ d', doc_id d' ≠ doc_id d) l2)
    [ {| doc_id := 0; doc_title := chars "c"; doc_content := chars "de" |} ].
Proof. exact (hits_last_stored shadowed_data (chars "a") _ hits_shadowed). Defined.

(** X4 on [data]: the hits of [bce] with the candidates taken in ascending
    order, and the hits of [ecbb] with the candidates taken in descending
    order. *)
Lemma hits_query_set_witness :
  ∃ hs2, hits (iteration := descending_iteration) data (chars "ecbb") = Ok hs2
         ∧ bm25_docs ≡ₚ hs2.
Proof.
  exact (proj1 (hits_query_set ascending_iteration descending_iteration
                  data (chars "bce") (chars "ecbb") same_tokens)
               bm25_docs hits_ascending).
Defined.

(** X6 on [data]: the first page of one is the head of the first page of
    two. *)
Lemma search_pages_witness :
  bm25_search "bce" data (Some 1)
  = (let* page := bm25_search "bce" data (Some 2) in Ok (take 1 page))
  ∧ qlm_search "bce" data (Some 1) (3 / 4)%R false
    = (let* page := qlm_search "bce" data (Some 2) (3 / 4)%R false in
       Ok (take 1 page)).
Proof.
  destruct (search_pages "bce" data (3 / 4)%R false 1 2) as (Hb & Hq & _).
  - lia.
  - by split.
Defined.

(** X7 on [raw_data]: the only model fails on the unknown word in
    logarithmic mode, and so does the search. *)
Lemma qlm_search_first_failure_witness :
  qlm_search "z" raw_data None (3 / 4)%R true = Raise ValueError.
Proof.
  apply qlm_search_first_failure.
  exists [], (Some 0, raw_doc_model), []. split_and!.
  - reflexivity.
  - constructor.
  - exact raw_model_fails.
Defined.

(** X9 on [shadowed_data]: the entry for id 0 carries the score of the
    second model. *)
Lemma qlm_search_last_model_witness :
  ∃ s, Ranker.calculate_interpolated_sentence_probability
         {| lm_id := Some 0; lm_counter := Counter (chars "cde");
            lm_total := 8; lm_smoothing := 1 |}
         (collection_model shadowed_data) (cleaned shadowed_data "bce")
         (3 / 4) false = Ok s
       ∧ (Some 0, s) ∈ [ (Some 0%Z, (308 / 36864)%R) ]
       ∧ ∀ s', (Some 0, s') ∈ [ (Some 0%Z, (308 / 36864)%R) ] → s' = s.
Proof.
  exact (qlm_search_last_model "bce" shadowed_data (3 / 4)%R false _
           [ {| lm_id := Some 0; lm_counter := Counter (chars "abc");
                lm_total := 8; lm_smoothing := 1 |} ]
           {| lm_id := Some 0; lm_counter := Counter (chars "cde");
              lm_total := 8; lm_smoothing := 1 |}
           [] qlm_shadowed_run eq_refl (Forall_nil_2 _)).
Defined.

(** X10 on [data]: the model of document 0 does not score above the first
    entry, 308/36864. *)
Lemma qlm_search_best_first_witness :
  ltb (308 / 36864)%R (299 / 36864)%R = false.
Proof.
  exact (qlm_search_best_first "bce" data (Some 2) (3 / 4)%R false _ _
           (qlm_run (Some 2))
           (Some 0, {| lm_id := Some 0; lm_counter := Counter (chars "abc");
                       lm_total := 8; lm_smoothing := 1 |})
           (299 / 36864)%R first_model_listed first_model_score).
Defined.

End MoreRuns.

(** ** Runs of [ranknet_lstm_search] on the fixtures *)

Module NeuralRuns.
Import PyFacts Searcher SearcherFacts Fixtures NeuralFixtures NeuralLaws.
Import PrimFloat.
#[local] Open Scope float_scope.

Lemma constant_output_numbers :
  Forall (λ s, is_nan s = false) [ 0.5; 0.75; 0.5 ].
Proof. by repeat constructor. Qed.

Lemma distinct_ids : NoDup (doc_id <$> docs data).
Proof. apply (bool_decide_unpack _). by vm_compute. Qed.

Lemma ranknet_run topk :
  ranknet_lstm_search (neural := constant_neural_ops)
    "bce" data "files/ranknet_lstm.pt" topk 50 200
  = Ok (slice_to neural_ranking topk).
Proof. apply ranknet_lstm_search_ok. eexists. split; [reflexivity|]. done. Qed.

(** X11 on [data] with the constant model, [topk = 2]. *)
Lemma ranknet_lstm_search_ranked_witness :
  StronglySorted (λ a b : Z * float, (a.2 <? b.2) = false)
    [ (1%Z, 0.75); (0%Z, 0.5) ]
  ∧ NoDup [ (1%Z, 0.75); (0%Z, 0.5) ].*1.
Proof.
  destruct (ranknet_lstm_search_ranked (neural := constant_neural_ops)
              "bce" data "files/ranknet_lstm.pt" (Some 2%Z) 50 200 _
              (ranknet_run (Some 2%Z)))
    as (output & [= <-] & Hdesc & Hnd & _).
  split; [exact (Hdesc constant_output_numbers) | exact Hnd].
Defined.

(** X12 on [data] with the constant model: documents 0 and 2 both score
    0.5, and 0 stays ahead of 2. *)
Lemma ranknet_lstm_search_distinct_witness :
  ∃ out,
    ranknet_lstm_search (neural := constant_neural_ops)
      "bce" data "files/ranknet_lstm.pt" None 50 200 = Ok out
    ∧ length out = 3%nat
    ∧ before (0%Z, 0.5) (2%Z, 0.5) out.
Proof.
  destruct (ranknet_lstm_search_distinct (neural := constant_neural_ops)
              "bce" data "files/ranknet_lstm.pt" 50 200 [ 0.5; 0.75; 0.5 ]
              eq_refl distinct_ids)
    as (out & Hrun & _ & Hlen & Hstable).
  exists out. split_and!; [done..|].
  apply (Hstable constant_output_numbers); [|done].
  by exists [], [ (1%Z, 0.75) ], [].
Defined.

(** X13 on [data] with the constant model: the first page of one is the
    head of the first page of two. *)
Lemma ranknet_lstm_search_pages_witness :
  ranknet_lstm_search (neural := constant_neural_ops)
    "bce" data "files/ranknet_lstm.pt" (Some 1%Z) 50 200
  = (let* page := ranknet_lstm_search (neural := constant_neural_ops)
                    "bce" data "files/ranknet_lstm.pt" (Some 2%Z) 50 200 in
     Ok (take 1 page)).
Proof.
  destruct (ranknet_lstm_search_pages (neural := constant_neural_ops)
              "bce" data "files/ranknet_lstm.pt" 50 200)
    as (_ & Hpage & _).
  apply (Hpage 1%Z 2%Z). lia.
Defined.

End NeuralRuns.
